(** * peek-readable: a shallow embedding of [src/lib/index.ts]

    The module wraps a Node [stream.Readable] in a [StreamReader] that
    offers [read] and [peek].  The embedding keeps the program's own
    shape:

    - a [Buffer] is a view (start address and length) on a byte-addressed
      memory, because [Buffer.prototype.slice] shares the memory of the
      buffer it is taken from;
    - the fields of the class are the fields of the record [StreamReader];
    - [peekQueue] is only ever used through [push], [pop] and [length];
      the list keeps the last array element first;
    - an [async] method is run up to the point where it has to wait for
      the stream; what is left to do is kept as a [Continuation], and run
      by [resume] once the promise it waits for is settled.  Waiting for
      a promise that is settled already is not a step of its own;
    - the events of the stream are inputs of [dispatch].

    Offsets and lengths are natural numbers.  The buffers are Node
    buffers, which is what [peekQueue] is declared to hold.  The stream
    is any type with a [read] method; the test of the constructor that
    [s.read] and [s.once] exist has nothing to fail on. *)

From Stdlib Require Import Lia.
From Stdlib.Strings Require Import Byte.
From stdpp Require Import strings list relations.

(** Closes a statement about a run on concrete worlds. *)
Ltac by_running := vm_compute; by repeat split.

(** ** Memory and Node buffers *)

Definition memory := nat → byte.

Definition load (m : memory) (addr n : nat) : list byte := map m (seq addr n).

Definition store (m : memory) (addr : nat) (bs : list byte) : memory :=
  fun a =>
    if decide (addr ≤ a < addr + length bs)
    then default x00 (bs !! (a - addr))
    else m a.

(** [blength] is the [length] property of the buffer. *)
Record Buffer := mkBuffer { byteOffset : nat; blength : nat }.

Definition toBytes (m : memory) (b : Buffer) : list byte :=
  load m (byteOffset b) (blength b).

(** [buf.slice(start, end)]: a new view on the same memory, both indices
    clamped to the length of [buf]. *)
Definition slice (b : Buffer) (start end_ : nat) : Buffer :=
  let s := start `min` blength b in
  let e := end_ `min` blength b in
  {| byteOffset := byteOffset b + s; blength := e - s |}.

(** [buf.slice(start)] *)
Definition slice_from (b : Buffer) (start : nat) : Buffer :=
  slice b start (blength b).

(** [source.copy(target, targetStart, sourceStart, sourceEnd)]: the bytes
    are read before any is written (the regions may overlap), and the
    copy stops at the end of [target] and at the end of [source]. *)
Definition copy (m : memory) (source target : Buffer)
    (targetStart sourceStart sourceEnd : nat) : memory :=
  let nb := ((sourceEnd - sourceStart) `min` (blength target - targetStart))
              `min` (blength source - sourceStart) in
  store m (byteOffset target + targetStart)
          (load m (byteOffset source + sourceStart) nb).

(** [readBuffer.copy(target, targetStart)] for a chunk handed out by the
    stream; the chunk is a buffer of its own, given by its bytes. *)
Definition copy_chunk (m : memory) (chunk : list byte) (target : Buffer)
    (targetStart : nat) : memory :=
  store m (byteOffset target + targetStart)
          (take (blength target - targetStart) chunk).

(** The bytes under the chunks of a peek queue, first chunk first, and
    their number. *)
Fixpoint queued (m : memory) (q : list Buffer) : list byte :=
  match q with
  | [] => []
  | chunk :: q => toBytes m chunk ++ queued m q
  end.

Fixpoint buffered (q : list Buffer) : nat :=
  match q with
  | [] => 0
  | chunk :: q => blength chunk + buffered q
  end.

(** The chunk [c] shares no address with the [n] bytes at [addr]. *)
Definition apart (addr n : nat) (c : Buffer) : Prop :=
  byteOffset c + blength c ≤ addr ∨ addr + n ≤ byteOffset c.

(** ** Errors and promises *)

Inductive error :=
  | Error (message : string)
  | AssertionError (message : string)
  | TypeError.

(** [export const endOfStream = 'End-Of-Stream'] is only used as the
    message of [new Error(endOfStream)]. *)
Definition endOfStreamMessage : string := "End-Of-Stream"%string.
Definition endOfStreamError : error := Error endOfStreamMessage.
Definition streamClosedError : error := Error "Stream closed"%string.
Definition concurrentRead : error := AssertionError "Concurrent read operation?"%string.

(** The state of the promise of a [Deferred<number>]. *)
Inductive Settlement :=
  | Pending
  | Resolved (value : nat)
  | RejectedWith (reason : error).

(** A [Deferred] object is known by its index in the table of promises. *)
Definition Deferred := nat.

(** The first [resolve] or [reject] settles a promise, later ones are
    ignored. *)
Definition settle (d : Deferred) (v : Settlement) (ps : list Settlement)
    : list Settlement :=
  match ps !! d with
  | Some Pending => <[d := v]> ps
  | _ => ps
  end.

Record IReadRequest := mkRequest {
  buffer : Buffer;
  offset : nat;
  length_ : nat;
  deferred : Deferred
}.

(** ** The stream *)

(** [s.read(size)] of a [stream.Readable]: a chunk or [null], and the new
    state of the stream. *)
Class Readable (Stream : Type) := {
  stream_read : Stream → nat → option (list byte) * Stream
}.

(** Node hands out at most [size] bytes for [read(size)]. *)
Definition bounded_reads (Stream : Type) `{Readable Stream} : Prop :=
  ∀ (s : Stream) size chunk s',
    stream_read s size = (Some chunk, s') → length chunk ≤ size.

Section StreamReader.

Context {Stream : Type} `{!Readable Stream}.

(** The fields of [class StreamReader]. *)
Record StreamReader := mkStreamReader {
  s : Stream;
  request : option IReadRequest;
  endOfStream : bool;
  peekQueue : list Buffer
}.

(** Everything the methods can change: the object itself, the memory of
    the buffers, the promises, and the [once] listeners the object has
    registered on the stream ([readable_once] counts the listeners
    [() => this.tryRead()]). *)
Record World := mkWorld {
  heap : memory;
  promises : list Settlement;
  readable_once : nat;
  end_once : bool;
  error_once : bool;
  close_once : bool;
  this : StreamReader
}.

Definition set_this (w : World) (t : StreamReader) : World :=
  mkWorld (heap w) (promises w) (readable_once w) (end_once w)
          (error_once w) (close_once w) t.

Definition set_heap (w : World) (m : memory) : World :=
  mkWorld m (promises w) (readable_once w) (end_once w)
          (error_once w) (close_once w) (this w).

Definition set_promises (w : World) (ps : list Settlement) : World :=
  mkWorld (heap w) ps (readable_once w) (end_once w)
          (error_once w) (close_once w) (this w).

Definition set_readable_once (w : World) (n : nat) : World :=
  mkWorld (heap w) (promises w) n (end_once w)
          (error_once w) (close_once w) (this w).

Definition set_end_once (w : World) (b : bool) : World :=
  mkWorld (heap w) (promises w) (readable_once w) b
          (error_once w) (close_once w) (this w).

Definition set_error_once (w : World) (b : bool) : World :=
  mkWorld (heap w) (promises w) (readable_once w) (end_once w)
          b (close_once w) (this w).

Definition set_close_once (w : World) (b : bool) : World :=
  mkWorld (heap w) (promises w) (readable_once w) (end_once w)
          (error_once w) b (this w).

Definition set_s (w : World) (s' : Stream) : World :=
  set_this w (mkStreamReader s' (request (this w)) (endOfStream (this w))
                             (peekQueue (this w))).

Definition set_request (w : World) (r : option IReadRequest) : World :=
  set_this w (mkStreamReader (s (this w)) r (endOfStream (this w))
                             (peekQueue (this w))).

Definition set_endOfStream (w : World) (b : bool) : World :=
  set_this w (mkStreamReader (s (this w)) (request (this w)) b
                             (peekQueue (this w))).

Definition set_peekQueue (w : World) (q : list Buffer) : World :=
  set_this w (mkStreamReader (s (this w)) (request (this w))
                             (endOfStream (this w)) q).

(** [this.peekQueue.push(chunk)] *)
Definition push (w : World) (chunk : Buffer) : World :=
  set_peekQueue w (chunk :: peekQueue (this w)).

(** [new StreamReader(s)]: the three termination listeners are registered. *)
Definition constructor (m : memory) (s0 : Stream) : World :=
  mkWorld m [] 0 true true true (mkStreamReader s0 None false []).

(** ** The methods *)

(** [reject(err)], lines 154-160. *)
Definition reject (w : World) (err : error) : World :=
  let w := set_endOfStream w true in
  match request (this w) with
  | Some r =>
      let w := set_promises w (settle (deferred r) (RejectedWith err) (promises w)) in
      set_request w None
  | None => w
  end.

(** What [_read] hands back: the promise of an [async] function that
    returned, one that threw, or the promise of a new [Deferred]. *)
Inductive LowLevel :=
  | Chunk (n : nat)
  | Failed (e : error)
  | Waiting (d : Deferred).

(** [_read(buffer, offset, length)], lines 113-140, up to the [return]. *)
Definition _read (w : World) (buffer : Buffer) (offset len : nat)
    : LowLevel * World :=
  match request (this w) with
  | Some _ => (Failed concurrentRead, w)
  | None =>
      let '(readBuffer, s') := stream_read (s (this w)) len in
      let w := set_s w s' in
      match readBuffer with
      | Some chunk =>
          (Chunk (length chunk), set_heap w (copy_chunk (heap w) chunk buffer offset))
      | None =>
          let d := length (promises w) in
          let w := set_promises w (promises w ++ [Pending]) in
          let w := set_request w (Some (mkRequest buffer offset len d)) in
          let w := set_readable_once w (S (readable_once w)) in
          (Waiting d, w)
      end
  end.

(** [tryRead()], lines 142-152; [Some TypeError] when [this.request] is
    not set and [this.request.length] throws. *)
Definition tryRead (w : World) : option error * World :=
  match request (this w) with
  | None => (Some TypeError, w)
  | Some r =>
      let '(readBuffer, s') := stream_read (s (this w)) (length_ r) in
      let w := set_s w s' in
      match readBuffer with
      | Some chunk =>
          let w := set_heap w (copy_chunk (heap w) chunk (buffer r) (offset r)) in
          (None, set_promises w (settle (deferred r) (Resolved (length chunk)) (promises w)))
      | None =>
          (None, set_readable_once w (S (readable_once w)))
      end
  end.

(** The loop of lines 88-98.  [None] when the fuel runs out. *)
Fixpoint consumePeeked (fuel : nat) (w : World) (buffer : Buffer)
    (offset bytesRead remaining : nat) : option (World * nat * nat) :=
  match fuel with
  | 0 => None
  | S fuel =>
      match peekQueue (this w) with
      | peekData :: rest =>
          if bool_decide (0 < remaining) then
            let w := set_peekQueue w rest in
            let lenCopy := blength peekData `min` remaining in
            let w := set_heap w (copy (heap w) peekData buffer (offset + bytesRead) 0 lenCopy) in
            let w := if bool_decide (lenCopy < blength peekData)
                     then push w (slice_from peekData lenCopy)
                     else w in
            consumePeeked fuel w buffer offset (bytesRead + lenCopy) (remaining - lenCopy)
          else Some (w, bytesRead, remaining)
      | [] => Some (w, bytesRead, remaining)
      end
  end.

(** What is left to do once the awaited promise of [_read] is settled:
    line 101-103 of [read], and for [peek] lines 65-66 after them. *)
Inductive Continuation :=
  | AfterRead (bytesRead : nat)
  | AfterPeek (bytesRead : nat) (buffer : Buffer) (offset : nat).

(** The promise of [read] or [peek] once the call has run as far as it
    can without waiting for the stream. *)
Inductive Async :=
  | Returned (n : nat)
  | Thrown (e : error)
  | Awaiting (d : Deferred) (k : Continuation).

(** [read(buffer, offset, length)], lines 76-104. *)
Definition read (w : World) (buffer : Buffer) (offset len : nat)
    : option (Async * World) :=
  if bool_decide (len = 0) then Some (Returned 0, w)
  else if bool_decide (length (peekQueue (this w)) = 0) && endOfStream (this w)
  then Some (Thrown endOfStreamError, w)
  else
    match consumePeeked (S (len + length (peekQueue (this w))))
                        w buffer offset 0 len with
    | None => None
    | Some (w, bytesRead, remaining) =>
        if bool_decide (0 < remaining) && negb (endOfStream (this w)) then
          match _read w buffer (offset + bytesRead) remaining with
          | (Chunk n, w) => Some (Returned (bytesRead + n), w)
          | (Failed e, w) => Some (Thrown e, w)
          | (Waiting d, w) => Some (Awaiting d (AfterRead bytesRead), w)
          end
        else Some (Returned bytesRead, w)
    end.

(** [peek(buffer, offset, length)], lines 63-67. *)
Definition peek (w : World) (buffer : Buffer) (offset len : nat)
    : option (Async * World) :=
  match read w buffer offset len with
  | Some (Returned bytesRead, w) =>
      Some (Returned bytesRead, push w (slice buffer offset (offset + bytesRead)))
  | Some (Thrown e, w) => Some (Thrown e, w)
  | Some (Awaiting d (AfterRead bytesRead), w) =>
      Some (Awaiting d (AfterPeek bytesRead buffer offset), w)
  | Some (Awaiting d k, w) => Some (Awaiting d k, w)
  | None => None
  end.

(** The rest of a call that had to wait, run when the promise [d] is
    settled: the two callbacks of [then] in lines 132-138 clear
    [this.request], then the caller goes on.  [None] while the promise is
    pending. *)
Definition resume (w : World) (d : Deferred) (k : Continuation)
    : option (Async * World) :=
  match promises w !! d with
  | Some (Resolved n) =>
      let w := set_request w None in
      match k with
      | AfterRead bytesRead => Some (Returned (bytesRead + n), w)
      | AfterPeek bytesRead buffer offset =>
          Some (Returned (bytesRead + n),
                push w (slice buffer offset (offset + (bytesRead + n))))
      end
  | Some (RejectedWith e) => Some (Thrown e, set_request w None)
  | _ => None
  end.

(** ** The events of the stream *)

Inductive Event :=
  | readable
  | end_
  | error_ (err : error)
  | close
  | arrival (s' : Stream).

(** [emit('readable')] calls the [n] listeners that were registered when
    it started; a [once] listener is removed before it is called, and an
    exception leaves the ones after it in place. *)
Fixpoint emit_readable (n : nat) (w : World) : option error * World :=
  match n with
  | 0 => (None, w)
  | S n =>
      match tryRead (set_readable_once w (readable_once w - 1)) with
      | (None, w) => emit_readable n w
      | (Some e, w) => (Some e, w)
      end
  end.

(** One event of the stream, as the object sees it.  [arrival] is the
    stream changing on its own: data comes in, or the stream ends.  The
    result is [None] when a listener throws. *)
Definition dispatch (w : World) (ev : Event) : option World :=
  match ev with
  | readable =>
      match emit_readable (readable_once w) w with
      | (None, w) => Some w
      | (Some _, _) => None
      end
  | end_ =>
      if end_once w
      then Some (reject (set_end_once w false) endOfStreamError)
      else Some w
  | error_ err =>
      if error_once w
      then Some (reject (set_error_once w false) err)
      else Some w
  | close =>
      if close_once w
      then Some (reject (set_close_once w false) streamClosedError)
      else Some w
  | arrival s' => Some (set_s w s')
  end.

(** [w'] differs from [w] at most in the memory and in the peek queue. *)
Definition same_object (w w' : World) : Prop :=
  promises w' = promises w ∧ readable_once w' = readable_once w ∧
  end_once w' = end_once w ∧ error_once w' = error_once w ∧
  close_once w' = close_once w ∧ s (this w') = s (this w) ∧
  request (this w') = request (this w) ∧
  endOfStream (this w') = endOfStream (this w).

(** No request is outstanding, or the outstanding request is [r]. *)
Definition held_by (r : IReadRequest) (w : World) : Prop :=
  request (this w) = None ∨ request (this w) = Some r.

(** A promise of [r] that is resolved is resolved with at most the number
    of bytes [r] asked for. *)
Definition resolved_in_bounds (r : IReadRequest) (w : World) : Prop :=
  ∀ n, promises w !! deferred r = Some (Resolved n) → n ≤ length_ r.

(** What the events of the stream can do while [r] is the only request
    there can be: the request stays or is cleared, the peek queue is left
    alone, the termination flag is not taken back, and the memory below
    the place [r] is to be written to is left alone. *)
Definition event_effect (r : IReadRequest) (w w' : World) : Prop :=
  held_by r w' ∧
  (request (this w) = None → request (this w') = None ∧ heap w' = heap w) ∧
  peekQueue (this w') = peekQueue (this w) ∧
  (endOfStream (this w) = true → endOfStream (this w') = true) ∧
  (∀ x, x < byteOffset (buffer r) + offset r → heap w' x = heap w x) ∧
  (bounded_reads Stream → resolved_in_bounds r w → resolved_in_bounds r w').

(** ** Calls that run to their end *)

Definition env_step (w w' : World) : Prop := ∃ ev, dispatch w ev = Some w'.

(** The call that started as [r] ends with [a] in the world [w']: at once,
    or after some events of the stream, when its promise is settled. *)
Definition completes (r : option (Async * World)) (a : Async) (w' : World)
    : Prop :=
  match r with
  | Some (Awaiting d k, w1) =>
      ∃ w2, rtc env_step w1 w2 ∧ resume w2 d k = Some (a, w')
  | Some (a1, w1) => a = a1 ∧ w' = w1
  | None => False
  end.

(** The worlds in which a single caller can be about to call [read] or
    [peek]: every earlier call has run to its end.  Between calls the
    stream raises events and the caller writes to its buffers. *)
Inductive reachable : World → Prop :=
  | reach_new m s0 : reachable (constructor m s0)
  | reach_event w w' : reachable w → env_step w w' → reachable w'
  | reach_write w m : reachable w → reachable (set_heap w m)
  | reach_read w buffer offset len a w' :
      reachable w → completes (read w buffer offset len) a w' → reachable w'
  | reach_peek w buffer offset len a w' :
      reachable w → completes (peek w buffer offset len) a w' → reachable w'.

End StreamReader.

Arguments StreamReader : clear implicits.
Arguments World : clear implicits.

(** ** A stream for the examples

    [read(size)] of a Node stream in byte mode: [size] bytes when that
    many are buffered; what is left when the producer has ended; [null]
    otherwise. *)
Record NodeStream := mkNodeStream { pending_bytes : list byte; ended : bool }.

#[export] Instance node_stream : Readable NodeStream := {|
  stream_read st size :=
    if bool_decide (size = 0) then (None, st)
    else if bool_decide (size ≤ length (pending_bytes st))
    then (Some (take size (pending_bytes st)),
          mkNodeStream (drop size (pending_bytes st)) (ended st))
    else if ended st && bool_decide (0 < length (pending_bytes st))
    then (Some (pending_bytes st), mkNodeStream [] true)
    else (None, st)
|}.

Definition zeros : memory := fun _ => x00.
Definition bytes (x : string) : list byte := String.list_byte_of_string x.

(** ** Worlds for the examples *)

Definition bufA : Buffer := mkBuffer 0 8.
Definition bufB : Buffer := mkBuffer 8 8.
Definition bufC : Buffer := mkBuffer 16 8.

(** The world a call leaves behind ([w] itself when the call has none). *)
Definition world_after (w : World NodeStream)
    (r : option (Async * World NodeStream)) : World NodeStream :=
  match r with
  | Some (_, w') => w'
  | None => w
  end.

(** A stream that holds its last byte and has ended, the [end] event not
    yet raised. *)
Definition last_byte : World NodeStream :=
  constructor zeros (mkNodeStream (bytes "a") true).

(** A stream that holds six bytes. *)
Definition six_bytes : World NodeStream :=
  constructor zeros (mkNodeStream (bytes "abcdef") false).
Definition six_bytes_peeked : World NodeStream :=
  world_after six_bytes (peek six_bytes bufA 0 2).
Definition six_bytes_peeked_twice : World NodeStream :=
  world_after six_bytes_peeked (peek six_bytes_peeked bufB 0 3).

(** A stream that holds two bytes. *)
Definition two_bytes : World NodeStream :=
  constructor zeros (mkNodeStream (bytes "ab") false).

(** A stream that holds nothing yet. *)
Definition no_bytes : World NodeStream :=
  constructor zeros (mkNodeStream [] false).

(** One chunk of three bytes in the peek queue. *)
Definition three_peeked : World NodeStream :=
  push (constructor (store zeros 0 (bytes "xyz")) (mkNodeStream [] false))
       (mkBuffer 0 3).

(** A [read] of two bytes that waits for the stream. *)
Definition waiting : World NodeStream :=
  world_after no_bytes (read no_bytes bufA 0 2).

(** The same after the termination of the stream. *)
Definition three_peeked_ended : World NodeStream :=
  reject three_peeked endOfStreamError.

(** ** What a single caller finds between and during its calls *)

Section Invariants.
Context {Stream : Type} `{!Readable Stream}.



End Invariants.

(** ** More worlds for the examples *)

(** Three bytes in the peek queue and six in the stream. *)
Definition three_peeked_six_left : World NodeStream :=
  push (constructor (store zeros 0 (bytes "xyz")) (mkNodeStream (bytes "abcdef") false))
       (mkBuffer 0 3).

(** The [read] of [waiting], when two bytes have come in. *)
Definition waiting_fed : World NodeStream :=
  set_s waiting (mkNodeStream (bytes "ab") false).

(** A reader whose stream has terminated before anything was read. *)
Definition ended_at_once : World NodeStream :=
  reject no_bytes endOfStreamError.

(** * Lemmas *)

(** ** Memory *)

Section Memory.
Implicit Types (m : memory) (bs : list byte).

Lemma length_load m a n : length (load m a n) = n.
Proof. unfold load. by rewrite length_map, length_seq. Qed.

Lemma load_app m a n1 n2 :
  load m a (n1 + n2) = load m a n1 ++ load m (a + n1) n2.
Proof. unfold load. by rewrite seq_app, map_app. Qed.

Lemma load_ext m m' a n :
  (∀ x, a ≤ x < a + n → m' x = m x) → load m' a n = load m a n.
Proof.
  intros Hx. unfold load. apply map_ext_in. intros x Hin.
  apply in_seq in Hin. apply Hx. lia.
Qed.

Lemma store_outside m a bs x :
  ¬ (a ≤ x < a + length bs) → store m a bs x = m x.
Proof. intros Hx. unfold store. by rewrite decide_False. Qed.

Lemma store_inside m a bs x :
  a ≤ x < a + length bs → store m a bs x = default x00 (bs !! (x - a)).
Proof. intros Hx. unfold store. by rewrite decide_True. Qed.

Lemma load_store_take m a bs k :
  k ≤ length bs → load (store m a bs) a k = take k bs.
Proof.
  intros Hk. apply list_eq. intros i. unfold load.
  rewrite list_lookup_fmap.
  destruct (decide (i < k)) as [Hi|Hi].
  - rewrite lookup_seq_lt by done. simpl.
    rewrite store_inside by lia. rewrite lookup_take_lt by done.
    replace (a + i - a) with i by lia.
    destruct (lookup_lt_is_Some_2 bs i) as [b ->]; [lia|done].
  - rewrite lookup_seq_ge by lia. simpl.
    symmetry. apply lookup_ge_None. rewrite length_take. lia.
Qed.

Lemma load_store_same m a bs : load (store m a bs) a (length bs) = bs.
Proof. rewrite load_store_take by done. by rewrite firstn_all. Qed.

Lemma load_store_apart m a bs a' n :
  a' + n ≤ a ∨ a + length bs ≤ a' → load (store m a bs) a' n = load m a' n.
Proof. intros Hd. apply load_ext. intros x Hx. apply store_outside. lia. Qed.

Lemma take_load k m a n : take k (load m a n) = load m a (k `min` n).
Proof.
  unfold load. rewrite <- fmap_take. f_equal.
  apply list_eq. intros i.
  destruct (decide (i < k `min` n)).
  - rewrite lookup_take_lt by lia. rewrite !lookup_seq_lt by lia. done.
  - rewrite (lookup_seq_ge _ (k `min` n)) by lia.
    apply lookup_ge_None. rewrite length_take, length_seq. lia.
Qed.

End Memory.

(** ** The loop over the peek queue *)

Lemma length_queued m q : length (queued m q) = buffered q.
Proof.
  induction q as [|c q IH]; simpl; [done|].
  rewrite length_app. unfold toBytes. rewrite length_load. lia.
Qed.

Lemma queued_ext m m' q :
  Forall (λ c, ∀ x, byteOffset c ≤ x < byteOffset c + blength c → m' x = m x) q →
  queued m' q = queued m q.
Proof.
  induction 1 as [|c q Hc _ IH]; simpl; [done|].
  rewrite IH. f_equal. unfold toBytes. by apply load_ext.
Qed.

Lemma copy_in_bounds m c target t n :
  n ≤ blength c → t + n ≤ blength target →
  copy m c target t 0 n = store m (byteOffset target + t) (load m (byteOffset c) n).
Proof.
  intros Hc Ht. unfold copy.
  replace (((n - 0) `min` (blength target - t)) `min` (blength c - 0)) with n by lia.
  by rewrite Nat.add_0_r.
Qed.

Section Loop.
Context {Stream : Type} `{!Readable Stream}.
Implicit Types (w : World Stream).

Lemma same_object_refl w : same_object w w.
Proof. by repeat split. Qed.

Lemma same_object_trans w1 w2 w3 :
  same_object w1 w2 → same_object w2 w3 → same_object w1 w3.
Proof. unfold same_object. intros; destruct_and!; repeat split; congruence. Qed.

Lemma consumePeeked_spec fuel : ∀ w target offset bytesRead remaining,
  remaining + length (peekQueue (this w)) < fuel →
  let q := peekQueue (this w) in
  let k := remaining `min` buffered q in
  let dst := byteOffset target + offset + bytesRead in
  ∃ w',
    consumePeeked fuel w target offset bytesRead remaining
      = Some (w', bytesRead + k, remaining - k) ∧
    same_object w w' ∧
    (k < remaining → peekQueue (this w') = []) ∧
    (remaining = 0 → w' = w) ∧
    (offset + bytesRead + remaining ≤ blength target →
       (∀ x, x < dst ∨ dst + k ≤ x → heap w' x = heap w x) ∧
       (Forall (apart (byteOffset target + offset) (bytesRead + remaining)) (tail q) →
          load (heap w') dst k = take k (queued (heap w) q))).
Proof.
  induction fuel as [|fuel IH]; intros w target offset bytesRead remaining Hfuel; [lia|].
  simpl. destruct (peekQueue (this w)) as [|c rest] eqn:Hq.
  { simpl. exists w. rewrite Nat.min_0_r, Nat.add_0_r, Nat.sub_0_r.
    repeat split; intros; try lia; auto using same_object_refl. }
  case_bool_decide as Hrem; cycle 1.
  { assert (remaining = 0) as -> by lia. simpl.
    exists w. rewrite Nat.add_0_r.
    repeat split; intros; try lia; auto using same_object_refl. }
  set (lenCopy := blength c `min` remaining).
  set (m1 := copy (heap w) c target (offset + bytesRead) 0 lenCopy).
  case_bool_decide as Hpart.
  - (* the chunk is longer than what is asked for *)
    assert (lenCopy = remaining) as HlenCopy by lia.
    edestruct (IH (push (set_heap (set_peekQueue w rest) m1) (slice_from c lenCopy))
                 target offset (bytesRead + lenCopy) (remaining - lenCopy))
      as (w' & Heq & Hsame & _ & Hid & _).
    { simpl in *. lia. }
    rewrite Heq. exists w'.
    replace (remaining - lenCopy) with 0 in * by lia.
    specialize (Hid eq_refl). subst w'. simpl.
    replace (remaining `min` (blength c + buffered rest)) with remaining by lia.
    rewrite HlenCopy, Nat.sub_diag, Nat.add_0_r.
    split; [done|]. split; [by repeat split|]. split; [intros; lia|]. split; [intros; lia|].
    intros Hin. subst m1. rewrite copy_in_bounds by lia. split.
    + intros x Hx. apply store_outside. rewrite length_load. lia.
    + intros _. rewrite HlenCopy.
      replace (byteOffset target + offset + bytesRead)
        with (byteOffset target + (offset + bytesRead)) by lia.
      rewrite <- (length_load (heap w) (byteOffset c) remaining) at 2.
      rewrite load_store_same.
      rewrite take_app_le by (unfold toBytes; rewrite length_load; lia).
      unfold toBytes. rewrite take_load. f_equal. lia.
  - (* the chunk is used up *)
    assert (lenCopy = blength c) as HlenCopy by lia.
    edestruct (IH (set_heap (set_peekQueue w rest) m1)
                 target offset (bytesRead + lenCopy) (remaining - lenCopy))
      as (w' & Heq & Hsame & Hempty & _ & Hmem).
    { simpl in *. lia. }
    rewrite Heq. exists w'. simpl in *.
    set (k' := (remaining - lenCopy) `min` buffered rest) in *.
    replace (remaining `min` (blength c + buffered rest)) with (lenCopy + k') by lia.
    split; [f_equal; f_equal; [f_equal|]; lia|].
    split; [done|]. split; [intros; apply Hempty; lia|]. split; [intros; lia|].
    intros Hin. destruct Hmem as [Hout Hload]; [lia|].
    assert (Hm1 : m1 = store (heap w) (byteOffset target + (offset + bytesRead))
                             (load (heap w) (byteOffset c) lenCopy)).
    { subst m1. apply copy_in_bounds; lia. }
    split.
    + intros x Hx. rewrite Hout by lia. rewrite Hm1.
      apply store_outside. rewrite length_load. lia.
    + intros Hapart. rewrite load_app.
      rewrite take_app_add' by (unfold toBytes; rewrite length_load; lia).
      f_equal.
      * rewrite (load_ext m1) by (intros x Hx; apply Hout; lia).
        rewrite Hm1.
        replace (byteOffset target + offset + bytesRead)
          with (byteOffset target + (offset + bytesRead)) by lia.
        rewrite <- (length_load (heap w) (byteOffset c) lenCopy) at 2.
        rewrite load_store_same. unfold toBytes. by rewrite HlenCopy.
      * replace (byteOffset target + offset + bytesRead + lenCopy)
          with (byteOffset target + offset + (bytesRead + lenCopy)) by lia.
        rewrite Hload.
        -- f_equal. apply queued_ext.
           eapply Forall_impl; [exact Hapart|]. intros c' Hc' x Hx. simpl in Hc'.
           rewrite Hm1. apply store_outside. rewrite length_load.
           unfold apart in Hc'. lia.
        -- destruct rest as [|c2 rest2]; simpl; [constructor|].
           simpl in Hapart. inversion Hapart as [|? ? _ Hrest]; subst.
           eapply Forall_impl; [exact Hrest|]. intros c' Hc'.
           replace (bytesRead + lenCopy + (remaining - lenCopy))
             with (bytesRead + remaining) by lia. done.
Qed.

End Loop.

(** ** [read] *)

Section Reading.
Context {Stream : Type} `{!Readable Stream}.
Implicit Types (w : World Stream).

(** [read] with a positive length, past its two early exits: the loop,
    then the stream if bytes are missing and the stream has not ended. *)
Lemma read_unfold w target offset len :
  0 < len →
  ¬ (peekQueue (this w) = [] ∧ endOfStream (this w) = true) →
  let q := peekQueue (this w) in
  let k := len `min` buffered q in
  let dst := byteOffset target + offset in
  ∃ w1,
    consumePeeked (S (len + length q)) w target offset 0 len
      = Some (w1, k, len - k) ∧
    same_object w w1 ∧
    (k < len → peekQueue (this w1) = []) ∧
    (offset + len ≤ blength target →
       (∀ x, x < dst ∨ dst + k ≤ x → heap w1 x = heap w x) ∧
       (Forall (apart dst len) (tail q) →
          load (heap w1) dst k = take k (queued (heap w) q))) ∧
    read w target offset len =
      if bool_decide (0 < len - k) && negb (endOfStream (this w))
      then match _read w1 target (offset + k) (len - k) with
           | (Chunk n, w2) => Some (Returned (k + n), w2)
           | (Failed e, w2) => Some (Thrown e, w2)
           | (Waiting d, w2) => Some (Awaiting d (AfterRead k), w2)
           end
      else Some (Returned k, w1).
Proof.
  intros Hlen Hne q k dst.
  destruct (consumePeeked_spec (S (len + length q)) w target offset 0 len)
    as (w1 & Heq & Hsame & Hempty & _ & Hmem); [unfold q; lia|].
  fold q in Heq, Hempty, Hmem. fold k in Heq, Hempty, Hmem.
  cbn [Nat.add] in Heq, Hmem. rewrite !Nat.add_0_r in Hmem. fold dst in Hmem.
  exists w1. split; [exact Heq|]. split; [done|]. split; [done|].
  split; [intros Hin; apply Hmem; lia|].
  unfold read. rewrite bool_decide_eq_false_2 by lia.
  destruct (bool_decide (length (peekQueue (this w)) = 0) && endOfStream (this w)) eqn:Hexit.
  { exfalso. apply Hne. apply andb_true_iff in Hexit as [Hl He].
    apply bool_decide_eq_true in Hl. split; [by apply nil_length_inv|done]. }
  fold q. rewrite Heq.
  destruct Hsame as (_ & _ & _ & _ & _ & _ & _ & ->). done.
Qed.

Lemma _read_busy w target offset len r :
  request (this w) = Some r →
  _read w target offset len = (Failed concurrentRead, w).
Proof. intros Hr. unfold _read. by rewrite Hr. Qed.

End Reading.

(** ** Promises and events *)

Section Promises.
Implicit Types (ps : list Settlement) (d : Deferred) (v : Settlement).


Lemma settle_pending d v ps :
  ps !! d = Some Pending → settle d v ps !! d = Some v.
Proof.
  intros Hd. unfold settle. rewrite Hd.
  apply list_lookup_insert_eq. by eapply lookup_lt_Some.
Qed.

Lemma settle_settled d v ps v0 :
  ps !! d = Some v0 → v0 ≠ Pending → settle d v ps = ps.
Proof. intros Hd Hv. unfold settle. rewrite Hd. by destruct v0. Qed.

Lemma settle_lookup d v ps :
  settle d v ps !! d = ps !! d ∨
  (ps !! d = Some Pending ∧ settle d v ps !! d = Some v).
Proof.
  destruct (ps !! d) as [[| |]|] eqn:Hd.
  - right. split; [done|]. by apply settle_pending.
  - left. by erewrite settle_settled.
  - left. by erewrite settle_settled.
  - left. unfold settle. by rewrite Hd.
Qed.

End Promises.

Section Events.
Context {Stream : Type} `{!Readable Stream}.
Implicit Types (w : World Stream) (r : IReadRequest).

Lemma reject_endOfStream w err : endOfStream (this (reject w err)) = true.
Proof. unfold reject. simpl. by destruct (request (this w)). Qed.

Lemma reject_request w err : request (this (reject w err)) = None.
Proof. unfold reject. simpl. by destruct (request (this w)) eqn:Hr. Qed.

Lemma reject_peekQueue w err :
  peekQueue (this (reject w err)) = peekQueue (this w).
Proof. unfold reject. simpl. by destruct (request (this w)). Qed.

Lemma reject_heap w err : heap (reject w err) = heap w.
Proof. unfold reject. simpl. by destruct (request (this w)). Qed.

Lemma reject_listeners w err :
  end_once (reject w err) = end_once w ∧
  error_once (reject w err) = error_once w ∧
  close_once (reject w err) = close_once w.
Proof. unfold reject. simpl. by destruct (request (this w)). Qed.

Lemma reject_promises w err :
  promises (reject w err) =
    match request (this w) with
    | Some r => settle (deferred r) (RejectedWith err) (promises w)
    | None => promises w
    end.
Proof. unfold reject. simpl. by destruct (request (this w)). Qed.

Lemma copy_chunk_below m chunk target t x :
  x < byteOffset target + t → copy_chunk m chunk target t x = m x.
Proof. intros Hx. unfold copy_chunk. apply store_outside. lia. Qed.

Lemma event_effect_refl r w : held_by r w → event_effect r w w.
Proof. intros Hh. by repeat split. Qed.

Lemma event_effect_trans r w1 w2 w3 :
  event_effect r w1 w2 → event_effect r w2 w3 → event_effect r w1 w3.
Proof.
  intros (Hh1 & Hn1 & Hq1 & He1 & Hm1 & Hp1) (Hh2 & Hn2 & Hq2 & He2 & Hm2 & Hp2).
  repeat split; auto.
  - destruct (Hn1 H) as [Hr _]. by destruct (Hn2 Hr).
  - destruct (Hn1 H) as [Hr Hm]. destruct (Hn2 Hr) as [_ ->]. done.
  - congruence.
  - intros x Hx. rewrite Hm2, Hm1; auto.
Qed.

Lemma tryRead_effect r w w' :
  held_by r w → tryRead w = (None, w') → event_effect r w w'.
Proof.
  intros Hh. unfold tryRead. destruct Hh as [Hr|Hr]; rewrite Hr; [done|].
  destruct (stream_read (s (this w)) (length_ r)) as [[chunk|] s'] eqn:Hs;
    intros [= <-]; (split; [by right|]); (split; [by rewrite Hr|]);
    repeat split; simpl; auto.
  - intros x Hx. by apply copy_chunk_below.
  - intros Hb Hin n. simpl.
    destruct (settle_lookup (deferred r) (Resolved (length chunk)) (promises w))
      as [->|[_ ->]]; [apply Hin|].
    intros [= <-]. by eapply Hb.
Qed.

Lemma emit_readable_effect r n : ∀ w w',
  held_by r w → emit_readable n w = (None, w') → event_effect r w w'.
Proof.
  induction n as [|n IH]; intros w w' Hh; simpl.
  { intros [= <-]. by apply event_effect_refl. }
  destruct (tryRead (set_readable_once w (readable_once w - 1))) as [[e|] w1] eqn:Ht;
    [done|].
  intros Hemit. apply (tryRead_effect r) in Ht; [|done].
  eapply (event_effect_trans r w w1 w'); [exact Ht|].
  apply IH; [apply Ht|done].
Qed.

Lemma reject_effect r w err : held_by r w → event_effect r w (reject w err).
Proof.
  intros Hh. split; [left; apply reject_request|].
  split; [intros _; split; [apply reject_request|apply reject_heap]|].
  split; [apply reject_peekQueue|]. split; [intros _; apply reject_endOfStream|].
  split; [intros x _; by rewrite reject_heap|].
  intros _ Hin n. rewrite reject_promises.
  destruct Hh as [->| ->]; [apply Hin|].
  destruct (settle_lookup (deferred r) (RejectedWith err) (promises w))
    as [->|[_ ->]]; [apply Hin|done].
Qed.

Lemma env_step_effect r w w' : held_by r w → env_step w w' → event_effect r w w'.
Proof.
  intros Hh [ev Hev]. destruct ev as [| |err| |s']; simpl in Hev.
  - destruct (emit_readable (readable_once w) w) as [[e|] w1] eqn:Hemit; [done|].
    injection Hev as <-. by eapply emit_readable_effect.
  - destruct (end_once w); injection Hev as <-;
      [by apply (reject_effect r (set_end_once w false))|by apply event_effect_refl].
  - destruct (error_once w); injection Hev as <-;
      [by apply (reject_effect r (set_error_once w false))|by apply event_effect_refl].
  - destruct (close_once w); injection Hev as <-;
      [by apply (reject_effect r (set_close_once w false))|by apply event_effect_refl].
  - injection Hev as <-. by repeat split.
Qed.

Lemma env_steps_effect r w w' :
  held_by r w → rtc env_step w w' → event_effect r w w'.
Proof.
  intros Hh Hsteps. induction Hsteps as [w|w1 w2 w3 Hstep _ IH].
  - by apply event_effect_refl.
  - pose proof (env_step_effect r _ _ Hh Hstep) as H12.
    eapply event_effect_trans; [exact H12|]. apply IH. apply H12.
Qed.

End Events.

(** ** The ways a call ends *)

Section Outcomes.
Context {Stream : Type} `{!Readable Stream}.
Implicit Types (w : World Stream) (r : IReadRequest).

Lemma consumePeeked_first fuel w target offset remaining c rest w1 br1 rem1 :
  peekQueue (this w) = c :: rest →
  0 < remaining →
  remaining + length rest < fuel →
  offset + remaining ≤ blength target →
  consumePeeked (S fuel) w target offset 0 remaining = Some (w1, br1, rem1) →
  let lc := blength c `min` remaining in
  load (heap w1) (byteOffset target + offset) lc = take lc (toBytes (heap w) c).
Proof.
  intros Hq Hrem Hfuel Hin. simpl. rewrite Hq.
  rewrite bool_decide_eq_true_2 by done.
  set (lenCopy := blength c `min` remaining).
  set (m1 := copy (heap w) c target (offset + 0) 0 lenCopy).
  set (w0 := if bool_decide (lenCopy < blength c)
             then push (set_heap (set_peekQueue w rest) m1) (slice_from c lenCopy)
             else set_heap (set_peekQueue w rest) m1).
  assert (Hheap : heap w0 = m1) by (subst w0; by case_bool_decide).
  assert (Hlen : remaining - lenCopy + length (peekQueue (this w0)) < fuel).
  { subst w0 lenCopy. case_bool_decide; simpl; lia. }
  destruct (consumePeeked_spec fuel w0 target offset lenCopy (remaining - lenCopy) Hlen)
    as (w' & Heq & _ & _ & _ & Hmem).
  cbn [Nat.add]. rewrite Heq. intros [= <- _ _].
  destruct Hmem as [Hout _]; [lia|].
  rewrite (load_ext (heap w0)) by (intros x Hx; apply Hout; lia).
  rewrite Hheap. subst m1. rewrite copy_in_bounds by lia.
  rewrite Nat.add_0_r.
  rewrite <- (length_load (heap w) (byteOffset c) lenCopy) at 2.
  rewrite load_store_same. unfold toBytes. rewrite take_load.
  f_equal. lia.
Qed.

(** What a call of [read] leaves behind, by the way it ends. *)
Lemma read_outcome w target offset len a w' :
  read w target offset len = Some (a, w') →
  endOfStream (this w') = endOfStream (this w) ∧
  match a with
  | Returned n =>
      request (this w') = request (this w) ∧
      (n < len → peekQueue (this w') = []) ∧
      (bounded_reads Stream → n ≤ len)
  | Thrown e =>
      request (this w') = request (this w) ∧
      (e = endOfStreamError ∧ w' = w ∧ peekQueue (this w) = [] ∨
       e = concurrentRead ∧ request (this w) ≠ None)
  | Awaiting d k =>
      request (this w) = None ∧
      ∃ br, k = AfterRead br ∧ br < len ∧
        request (this w') = Some (mkRequest target (offset + br) (len - br) d) ∧
        promises w' !! d = Some Pending ∧
        peekQueue (this w') = [] ∧
        endOfStream (this w') = false
  end.
Proof.
  destruct (decide (len = 0)) as [->|Hlen].
  { intros [= <- <-]. repeat split; intros; lia. }
  destruct (decide (peekQueue (this w) = [] ∧ endOfStream (this w) = true)) as [[Hq He]|Hne].
  { unfold read. rewrite bool_decide_eq_false_2 by done. rewrite Hq, He. simpl.
    intros [= <- <-]. repeat split; auto. }
  destruct (read_unfold w target offset len) as (w1 & _ & Hsame & Hempty & _ & ->);
    [lia|done|].
  destruct Hsame as (Hps & _ & _ & _ & _ & Hs & Hr & He).
  set (k := len `min` buffered (peekQueue (this w))) in *.
  destruct (bool_decide (0 < len - k) && negb (endOfStream (this w))) eqn:Hmore.
  - apply andb_true_iff in Hmore as [Hk Heos]. apply bool_decide_eq_true in Hk.
    apply negb_true_iff in Heos.
    unfold _read. rewrite Hr. destruct (request (this w)) as [r|] eqn:Hreq.
    { intros [= <- <-]. split; [done|]. split; [done|]. right. done. }
    rewrite Hs.
    destruct (stream_read (s (this w)) (len - k)) as [[chunk|] s'] eqn:Hread;
      intros [= <- <-]; simpl.
    + split; [done|]. split; [done|]. split; [intros _; apply Hempty; lia|].
      intros Hb. apply Hb in Hread. lia.
    + split; [congruence|]. split; [done|]. exists k.
      split; [done|]. split; [lia|]. split; [done|].
      split; [by rewrite Hps; apply list_lookup_middle|].
      split; [apply Hempty; lia|]. congruence.
  - intros [= <- <-]. split; [done|]. split; [done|].
    split; [intros; apply Hempty; lia|]. intros _. lia.
Qed.

(** The bytes of the chunk on top of the peek queue are the first bytes a
    [read] delivers, whatever else the call does afterwards. *)
Lemma read_first_chunk w target offset len c rest a w' :
  peekQueue (this w) = c :: rest →
  0 < len →
  offset + len ≤ blength target →
  read w target offset len = Some (a, w') →
  let lc := blength c `min` len in
  load (heap w') (byteOffset target + offset) lc = take lc (toBytes (heap w) c) ∧
  match a with
  | Returned n => lc ≤ n
  | Awaiting d k => ∃ br, k = AfterRead br ∧ lc ≤ br
  | Thrown e => e = concurrentRead
  end.
Proof.
  intros Hq Hlen Hin Hread lc.
  destruct (read_unfold w target offset len) as (w1 & Hloop & Hsame & _ & _ & Heq);
    [done|by rewrite Hq; intros [? _]|].
  pose proof Hloop as Hfirst. rewrite Hq in Hfirst at 1.
  apply (consumePeeked_first _ _ _ _ _ c rest) in Hfirst; [|done|done|simpl; lia|done].
  fold lc in Hfirst.
  set (k := len `min` buffered (peekQueue (this w))) in *.
  assert (Hk : lc ≤ k) by (subst lc k; rewrite Hq; simpl; lia).
  rewrite Heq in Hread. clear Heq.
  destruct (bool_decide (0 < len - k) && negb (endOfStream (this w))); cycle 1.
  { injection Hread as <- <-. done. }
  unfold _read in Hread. destruct (request (this w1)).
  { injection Hread as <- <-. done. }
  destruct (stream_read (s (this w1)) (len - k)) as [[chunk|] s'];
    injection Hread as <- <-; simpl.
  - split; [|lia]. rewrite <- Hfirst. apply load_ext. intros x Hx.
    apply copy_chunk_below. lia.
  - split; [done|]. by exists k.
Qed.

End Outcomes.

Section Calls.
Context {Stream : Type} `{!Readable Stream}.
Implicit Types (w : World Stream) (r : IReadRequest).

Lemma read_total w target offset len :
  ∃ a w', read w target offset len = Some (a, w').
Proof.
  destruct (decide (len = 0)) as [->|Hlen]; [by eexists _, _|].
  destruct (decide (peekQueue (this w) = [] ∧ endOfStream (this w) = true)) as [[Hq He]|Hne].
  { unfold read. rewrite bool_decide_eq_false_2 by done. rewrite Hq, He. by eexists _, _. }
  destruct (read_unfold w target offset len) as (w1 & _ & _ & _ & _ & ->); [lia|done|].
  destruct (bool_decide _ && negb _); [|by eexists _, _].
  destruct (_read w1 target _ _) as [[n|e|d] w2]; by eexists _, _.
Qed.

Lemma slice_in_bounds b o k :
  o + k ≤ blength b → slice b o (o + k) = mkBuffer (byteOffset b + o) k.
Proof. intros Hin. unfold slice. f_equal; lia. Qed.

Lemma peek_outcome w target offset len x w' :
  peek w target offset len = Some (x, w') →
  match x with
  | Returned k =>
      ∃ w1, read w target offset len = Some (Returned k, w1) ∧
            w' = push w1 (slice target offset (offset + k))
  | Thrown e => read w target offset len = Some (Thrown e, w')
  | Awaiting d kont =>
      ∃ br, kont = AfterPeek br target offset ∧
            read w target offset len = Some (Awaiting d (AfterRead br), w')
  end.
Proof.
  unfold peek. destruct (read w target offset len) as [[[n|e|d k] w1]|] eqn:Hread;
    [| | |done].
  - intros [= <- <-]. by exists w1.
  - by intros [= <- <-].
  - apply read_outcome in Hread as (_ & _ & br & -> & _).
    intros [= <- <-]. by exists br.
Qed.

Lemma peek_total w target offset len :
  ∃ a w', peek w target offset len = Some (a, w').
Proof.
  unfold peek. destruct (read_total w target offset len) as (a & w' & ->).
  destruct a as [n|e|d [br|br b o]]; by eexists _, _.
Qed.

Lemma resume_outcome w d k a w' :
  resume w d k = Some (a, w') →
  request (this w') = None ∧ heap w' = heap w ∧
  endOfStream (this w') = endOfStream (this w) ∧
  match a with
  | Returned n =>
      ∃ m, promises w !! d = Some (Resolved m) ∧
        match k with
        | AfterRead br => n = br + m ∧ w' = set_request w None
        | AfterPeek br b o =>
            n = br + m ∧ w' = push (set_request w None) (slice b o (o + n))
        end
  | Thrown e => promises w !! d = Some (RejectedWith e) ∧ w' = set_request w None
  | Awaiting _ _ => False
  end.
Proof.
  unfold resume. destruct (promises w !! d) as [[|m|e]|]; [done| | |done].
  - destruct k as [br|br b o]; intros [= <- <-]; repeat split; by exists m.
  - by intros [= <- <-].
Qed.

Lemma env_steps_idle w w' :
  request (this w) = None → rtc env_step w w' →
  request (this w') = None ∧ heap w' = heap w ∧
  peekQueue (this w') = peekQueue (this w).
Proof.
  intros Hr Hsteps.
  destruct (env_steps_effect (mkRequest (mkBuffer 0 0) 0 0 0) w w') as (_ & Hn & Hq & _);
    [by left|done|].
  destruct (Hn Hr). done.
Qed.

(** What a [peek] that ran to its end leaves behind. *)
Lemma peek_completed w0 target offset len k w1 :
  bounded_reads Stream →
  request (this w0) = None →
  offset + len ≤ blength target →
  completes (peek w0 target offset len) (Returned k) w1 →
  k ≤ len ∧ request (this w1) = None ∧
  ∃ rest, peekQueue (this w1) = mkBuffer (byteOffset target + offset) k :: rest ∧
          (k < len → rest = []).
Proof.
  intros Hb Hreq Hin Hdone. unfold completes in Hdone.
  destruct (peek w0 target offset len) as [[[n|e|d kont] wp]|] eqn:Hpeek; [| | |done].
  - destruct Hdone as [[= <-] ->].
    apply peek_outcome in Hpeek as (w' & Hread & ->).
    apply read_outcome in Hread as (_ & Hr & Hempty & Hle).
    specialize (Hle Hb). split; [done|]. split; [simpl; congruence|].
    exists (peekQueue (this w')). simpl. by rewrite slice_in_bounds by lia.
  - by destruct Hdone.
  - destruct Hdone as (wq & Hsteps & Hres).
    apply peek_outcome in Hpeek as (br & -> & Hread).
    apply read_outcome in Hread as (_ & _ & br' & [= <-] & Hbr & Hr & Hp & Hq & _).
    set (r := mkRequest target (offset + br) (len - br) d) in *.
    destruct (env_steps_effect r wp wq) as (_ & _ & Hq' & _ & _ & Hres_in);
      [by right|done|].
    apply resume_outcome in Hres as (_ & _ & _ & m & Hm & -> & ->).
    assert (m ≤ len - br) as Hle.
    { apply (Hres_in Hb); [|done]. intros n. simpl. by rewrite Hp. }
    split; [lia|]. split; [done|]. exists []. simpl.
    rewrite Hq', Hq. by rewrite slice_in_bounds by lia.
Qed.

(** A caller that waits for each call to end never finds a request
    outstanding. *)
Lemma reachable_idle w : reachable w → request (this w) = None.
Proof.
  induction 1 as [m s0|w w' _ IH Hstep|w m _ IH
                 |w b o n a w' _ IH Hdone|w b o n a w' _ IH Hdone].
  - done.
  - by destruct (env_steps_idle w w' IH (rtc_once _ _ Hstep)).
  - done.
  - unfold completes in Hdone.
    destruct (read w b o n) as [[[k|e|d kont] wp]|] eqn:Hread; [| | |done].
    + destruct Hdone as [_ ->]. apply read_outcome in Hread as (_ & -> & _). done.
    + destruct Hdone as [_ ->]. apply read_outcome in Hread as (_ & -> & _). done.
    + destruct Hdone as (wq & _ & Hres). by apply resume_outcome in Hres as (? & _).
  - unfold completes in Hdone.
    destruct (peek w b o n) as [[[k|e|d kont] wp]|] eqn:Hpeek; [| | |done].
    + destruct Hdone as [_ ->]. apply peek_outcome in Hpeek as (w1 & Hread & ->).
      apply read_outcome in Hread as (_ & Hr & _). simpl. congruence.
    + destruct Hdone as [_ ->]. apply peek_outcome in Hpeek.
      apply read_outcome in Hpeek as (_ & -> & _). done.
    + destruct Hdone as (wq & _ & Hres). by apply resume_outcome in Hres as (? & _).
Qed.

End Calls.

Section PeekThenRead.
Context {Stream : Type} `{!Readable Stream}.
Implicit Types (w : World Stream).

(** A [peek] that ended with all the bytes it was asked for, or that is
    followed by a [read] made when the termination of the stream has been
    observed: the [read] of the same length returns at once, with the
    bytes of the [peek]. *)
Lemma peek_then_read w0 a o1 n k w1 w1' b o2 :
  bounded_reads Stream →
  request (this w0) = None →
  o1 + n ≤ blength a →
  o2 + n ≤ blength b →
  completes (peek w0 a o1 n) (Returned k) w1 →
  rtc env_step w1 w1' →
  k = n ∨ endOfStream (this w1') = true →
  ∃ w2, read w1' b o2 n = Some (Returned k, w2) ∧
        load (heap w2) (byteOffset b + o2) k = load (heap w1) (byteOffset a + o1) k.
Proof.
  intros Hb Hreq Hin1 Hin2 Hfirst Hsteps Hfull.
  destruct (peek_completed w0 a o1 n k w1 Hb Hreq Hin1 Hfirst)
    as (Hk & Hidle & rest & Hq & Hrest).
  destruct (env_steps_idle w1 w1' Hidle Hsteps) as (_ & Hheap & Hq').
  rewrite Hq in Hq'. set (c := mkBuffer (byteOffset a + o1) k) in *.
  destruct (decide (n = 0)) as [->|Hn].
  { assert (k = 0) as -> by lia. by exists w1'. }
  destruct (read_total w1' b o2 n) as (x & w2 & Hread).
  pose proof Hread as Hchunk.
  apply (read_first_chunk w1' b o2 n c rest) in Hchunk as [Hload _]; [|done|lia|done].
  simpl in Hload. replace (k `min` n) with k in Hload by lia.
  exists w2. split.
  - destruct (read_unfold w1' b o2 n) as (w' & _ & _ & _ & _ & Heq);
      [lia|by rewrite Hq'; intros [? _]|].
    rewrite Hread in Heq. rewrite Hq' in Heq. simpl in Heq.
    destruct Hfull as [->|Heos].
    + replace (n `min` (n + buffered rest)) with n in Heq by lia.
      rewrite Nat.sub_diag in Heq. simpl in Heq. by injection Heq as -> ->.
    + rewrite Heos, andb_false_r in Heq. injection Heq as -> ->.
      rewrite Hread. do 3 f_equal.
      destruct (decide (k = n)) as [->|Hne]; [lia|].
      rewrite Hrest by lia. simpl. lia.
  - rewrite Hload, Hheap. apply firstn_all2. unfold toBytes. by rewrite length_load.
Qed.

End PeekThenRead.

(** * The claims *)

Section Claims.
Context {Stream : Type} `{!Readable Stream}.
Implicit Types (w : World Stream) (r : IReadRequest).

Lemma read_part_of_chunk w target offset len c rest :
  peekQueue (this w) = c :: rest →
  0 < len → len < blength c →
  read w target offset len =
    Some (Returned len,
          push (set_heap (set_peekQueue w rest) (copy (heap w) c target offset 0 len))
               (slice_from c len)).
Proof.
  intros Hq Hlen Hpart. unfold read.
  rewrite bool_decide_eq_false_2 by lia. rewrite Hq. simpl length.
  rewrite bool_decide_eq_false_2 by lia. cbn [andb].
  cbn [consumePeeked]. rewrite Hq.
  rewrite bool_decide_eq_true_2 by lia.
  replace (blength c `min` len) with len by lia.
  rewrite bool_decide_eq_true_2 by lia.
  rewrite Nat.sub_diag, Nat.add_0_r.
  destruct (len + S (length rest)) as [|fuel] eqn:Hfuel; [lia|].
  cbn [consumePeeked]. simpl. done.
Qed.

(** C2, as the code has it.  The chunk pushed last is the chunk [read]
    takes from first, whatever was pushed before it: the first bytes
    delivered are the first bytes of that chunk.  When the chunk is longer
    than what is asked for, [read] returns at once and puts what is left
    of the chunk back on top of the older chunks, so that it is taken
    first by the next call. *)
Theorem peek_queue_last_pushed_first w c target offset len :
  0 < len →
  offset + len ≤ blength target →
  let w1 := push w c in
  let dst := byteOffset target + offset in
  let lc := blength c `min` len in
  (∀ a w', read w1 target offset len = Some (a, w') →
     load (heap w') dst lc = take lc (toBytes (heap w) c) ∧
     match a with
     | Returned n => lc ≤ n
     | Awaiting d k => ∃ br, k = AfterRead br ∧ lc ≤ br
     | Thrown e => e = concurrentRead
     end) ∧
  (len < blength c →
     ∃ w', read w1 target offset len = Some (Returned len, w') ∧
           peekQueue (this w') = slice_from c len :: peekQueue (this w) ∧
           toBytes (heap w) (slice_from c len) = drop len (toBytes (heap w) c)).
Proof.
  intros Hlen Hin w1 dst lc. split.
  - intros a w' Hread.
    by apply (read_first_chunk w1 target offset len c (peekQueue (this w))).
  - intros Hpart. eexists. split.
    { by apply (read_part_of_chunk w1 target offset len c (peekQueue (this w))). }
    split; [done|].
    unfold toBytes, slice_from, slice. simpl.
    replace (len `min` blength c) with len by lia.
    rewrite Nat.min_id.
    replace (blength c) with (len + (blength c - len)) at 2 by lia.
    rewrite load_app, drop_app_length'; [done|by rewrite length_load].
Qed.

(** A [read] with a positive length made after the termination of the
    stream was observed, by the test of line 81: with no chunk in the
    peek queue it throws the End-Of-Stream error at once and changes
    nothing; with chunks in the peek queue it returns, without error and
    without a call to the stream, as many of the queued bytes as were
    asked for, and these are the bytes the caller finds in its buffer
    (the chunks below the first one not sharing memory with the target).
    A queue whose chunks hold no byte at all is among the second case. *)
Lemma read_after_termination w target offset len :
  0 < len →
  endOfStream (this w) = true →
  let q := peekQueue (this w) in
  let dst := byteOffset target + offset in
  (q = [] → read w target offset len = Some (Thrown endOfStreamError, w)) ∧
  (q ≠ [] →
     ∃ w', let k := len `min` buffered q in
       read w target offset len = Some (Returned k, w') ∧
       same_object w w' ∧
       (offset + len ≤ blength target →
        Forall (apart dst len) (tail q) →
          load (heap w') dst k = take k (queued (heap w) q))).
Proof.
  intros Hlen Heos q dst. split.
  - intros Hq. unfold read. rewrite bool_decide_eq_false_2 by lia.
    unfold q in Hq. by rewrite Hq, Heos.
  - intros Hq.
    destruct (read_unfold w target offset len) as (w1 & _ & Hsame & _ & Hmem & Hread);
      [done|by intros [? _]|].
    exists w1. simpl. rewrite Hread, Heos, andb_false_r.
    split; [done|]. split; [done|]. intros Hin Hapart. by apply Hmem.
Qed.

(** C4.  A [read] made after termination that finds fewer bytes in the
    peek queue than it was asked for: the loop leaves [bytesRead > 0]
    and [remaining > 0], and [read] returns [bytesRead] without error and
    without a call to the stream; the bytes taken from the peek queue are
    in the caller's buffer. *)
Theorem read_short_after_termination w target offset len :
  endOfStream (this w) = true →
  let q := peekQueue (this w) in
  let dst := byteOffset target + offset in
  0 < buffered q → buffered q < len →
  ∃ w',
    consumePeeked (S (len + length q)) w target offset 0 len
      = Some (w', buffered q, len - buffered q) ∧
    read w target offset len = Some (Returned (buffered q), w') ∧
    same_object w w' ∧
    peekQueue (this w') = [] ∧
    (offset + len ≤ blength target →
     Forall (apart dst len) (tail q) →
       load (heap w') dst (buffered q) = queued (heap w) q).
Proof.
  intros Heos q dst Hpos Hshort.
  destruct (read_unfold w target offset len) as (w1 & Hloop & Hsame & Hempty & Hmem & Hread).
  { lia. }
  { intros [Hq _]. unfold q in Hpos. rewrite Hq in Hpos. simpl in Hpos. lia. }
  fold q in Hloop, Hempty, Hmem, Hread. fold dst in Hmem.
  replace (len `min` buffered q) with (buffered q) in * by lia.
  exists w1. split; [done|]. rewrite Hread, Heos, andb_false_r.
  split; [done|]. split; [done|]. split; [apply Hempty; lia|].
  intros Hin Hapart. destruct Hmem as [_ Hload]; [done|].
  rewrite Hload by done. apply firstn_all2. rewrite length_queued. done.
Qed.


(** C6.  The listeners of [end], [error] and [close] are [once]
    listeners that all call [reject]: with the End-Of-Stream error for
    [end], with the error of the stream for [error], with the error
    'Stream closed' for [close]; a signal whose listener has been used is
    not seen.  [reject] sets [endOfStream], calls [reject] on the promise
    of the outstanding request when there is one (which settles it when
    it is still pending), and clears the request.  No event takes
    [endOfStream] back, and neither does a call. *)
Theorem termination_signals_reject w err :
  (end_once w = true →
     dispatch w end_ = Some (reject (set_end_once w false) endOfStreamError)) ∧
  (error_once w = true →
     dispatch w (error_ err) = Some (reject (set_error_once w false) err)) ∧
  (close_once w = true →
     dispatch w close = Some (reject (set_close_once w false) streamClosedError)) ∧
  (end_once w = false → dispatch w end_ = Some w) ∧
  (error_once w = false → dispatch w (error_ err) = Some w) ∧
  (close_once w = false → dispatch w close = Some w) ∧
  (end_once (reject (set_end_once w false) err) = false ∧
   error_once (reject (set_error_once w false) err) = false ∧
   close_once (reject (set_close_once w false) err) = false) ∧
  (endOfStream (this (reject w err)) = true ∧
   request (this (reject w err)) = None ∧
   ∀ r, request (this w) = Some r →
     promises (reject w err) = settle (deferred r) (RejectedWith err) (promises w) ∧
     (promises w !! deferred r = Some Pending →
        promises (reject w err) !! deferred r = Some (RejectedWith err))) ∧
  (endOfStream (this w) = true →
     (∀ ev w', dispatch w ev = Some w' → endOfStream (this w') = true) ∧
     (∀ b o n a w', read w b o n = Some (a, w') → endOfStream (this w') = true) ∧
     (∀ b o n a w', peek w b o n = Some (a, w') → endOfStream (this w') = true) ∧
     (∀ d k a w', resume w d k = Some (a, w') → endOfStream (this w') = true)).
Proof.
  do 6 (split; [by intros Hl; simpl; rewrite Hl|]).
  split.
  { split; [apply reject_listeners|]. split; apply reject_listeners. }
  split.
  { split; [apply reject_endOfStream|]. split; [apply reject_request|].
    intros r Hr. rewrite reject_promises, Hr. split; [done|]. apply settle_pending. }
  intros Heos. split; [|split; [|split]].
  - intros ev w' Hev.
    destruct (request (this w)) as [r|] eqn:Hr.
    + by apply (env_step_effect r w w'); [right|exists ev|].
    + by apply (env_step_effect (mkRequest (mkBuffer 0 0) 0 0 0) w w'); [left|exists ev|].
  - intros b o n a w' Hread. apply read_outcome in Hread as [-> _]. done.
  - intros b o n a w' Hpeek. apply peek_outcome in Hpeek.
    destruct a as [k|e|d kont].
    + destruct Hpeek as (w1 & Hread & ->). apply read_outcome in Hread as [He _].
      simpl. congruence.
    + apply read_outcome in Hpeek as [-> _]. done.
    + destruct Hpeek as (br & _ & Hread). apply read_outcome in Hread as [-> _]. done.
  - intros d k a w' Hres. apply resume_outcome in Hres as (_ & _ & -> & _). done.
Qed.

(** X15.  A [peek] of length [n1] that ended with [k1] bytes, then, with
    no call in between, a [peek] of length [n2 ≥ n1]: the second [peek]
    does not throw before it has to wait for the stream, and whenever it
    ends with a result, at once or after waiting, the first [k1] bytes of
    that result are the bytes of the first [peek].  Whether it ends with
    a result is another matter: one that waits is rejected when the
    stream terminates. *)
Theorem repeated_peek_prefix w0 a o1 n1 k1 w1 w1' b o2 n2 :
  bounded_reads Stream →
  request (this w0) = None →
  n1 ≤ n2 →
  o1 + n1 ≤ blength a →
  o2 + n2 ≤ blength b →
  completes (peek w0 a o1 n1) (Returned k1) w1 →
  rtc env_step w1 w1' →
  (∃ x w2, peek w1' b o2 n2 = Some (x, w2) ∧ ∀ e, x ≠ Thrown e) ∧
  (∀ k2 w2, completes (peek w1' b o2 n2) (Returned k2) w2 →
     k1 ≤ k2 ∧
     take k1 (load (heap w2) (byteOffset b + o2) k2)
       = load (heap w1) (byteOffset a + o1) k1).
Proof.
  intros Hb Hreq Hn Hin1 Hin2 Hfirst Hsteps.
  destruct (peek_completed w0 a o1 n1 k1 w1 Hb Hreq Hin1 Hfirst)
    as (Hk1 & Hidle & rest & Hq & _).
  destruct (env_steps_idle w1 w1' Hidle Hsteps) as (Hidle' & Hheap & Hq').
  rewrite Hq in Hq'. set (c := mkBuffer (byteOffset a + o1) k1) in *.
  assert (Hc : toBytes (heap w1') c = load (heap w1) (byteOffset a + o1) k1)
    by (by rewrite Hheap).
  split.
  - destruct (peek_total w1' b o2 n2) as (x & w2 & Hpeek).
    exists x, w2. split; [done|]. intros e ->.
    apply peek_outcome in Hpeek.
    apply read_outcome in Hpeek as (_ & _ & [(_ & _ & Hnil)|(_ & Hbusy)]); congruence.
  - intros k2 w2 Hdone.
    destruct (decide (n2 = 0)) as [->|Hn2].
    { assert (k1 = 0) as -> by lia. split; [lia|done]. }
    assert (Hgoal : k1 ≤ k2 ∧ load (heap w2) (byteOffset b + o2) k1
                             = load (heap w1) (byteOffset a + o1) k1).
    { unfold completes in Hdone.
      destruct (peek w1' b o2 n2) as [[[n|e|d kont] wp]|] eqn:Hpeek; [| | |done].
      - destruct Hdone as [[= <-] ->].
        apply peek_outcome in Hpeek as (w' & Hread & ->).
        apply (read_first_chunk w1' b o2 n2 c rest) in Hread as [Hload Hle];
          [|done|lia|done].
        simpl in Hload, Hle. replace (k1 `min` n2) with k1 in * by lia.
        rewrite <- Hc. split; [done|]. simpl. rewrite Hload.
        apply firstn_all2. unfold toBytes. by rewrite length_load.
      - by destruct Hdone.
      - destruct Hdone as (wq & Hsteps' & Hres).
        apply peek_outcome in Hpeek as (br & -> & Hread).
        pose proof Hread as Hout.
        apply (read_first_chunk w1' b o2 n2 c rest) in Hread
          as [Hload (br' & [= <-] & Hle)]; [|done|lia|done].
        simpl in Hload, Hle. replace (k1 `min` n2) with k1 in * by lia.
        apply read_outcome in Hout as (_ & _ & br' & [= <-] & _ & Hr & _).
        destruct (env_steps_effect _ wp wq (or_intror Hr) Hsteps')
          as (_ & _ & _ & _ & Hmem & _).
        simpl in Hmem.
        apply resume_outcome in Hres as (_ & Hheap2 & _ & m & _ & -> & Hw2).
        split; [lia|].
        rewrite <- Hc.
        rewrite (load_ext (heap wp)).
        + rewrite Hload. apply firstn_all2. unfold toBytes. by rewrite length_load.
        + intros x Hx. rewrite Hheap2. apply Hmem. lia. }
    destruct Hgoal as [Hle Hload]. split; [done|].
    rewrite take_load. by replace (k1 `min` k2) with k1 by lia.
Qed.

(** C8.  [read(buffer, offset, 0)] returns [0] at once and leaves the
    world as it was: the peek queue is neither read nor changed, and the
    stream, whose state is part of the world, is not called. *)
Theorem read_of_length_zero w target offset :
  read w target offset 0 = Some (Returned 0, w).
Proof. reflexivity. Qed.

(** C9.  [_read] asserts that no request is outstanding: called while
    there is one, it throws the assertion error and touches nothing.  So
    does a [read] or a [peek] made while an earlier [read] is still
    waiting for the stream.  A caller that lets each call end before the
    next one never meets the assertion: in every world such a caller can
    be in, no request is outstanding and neither [read] nor [peek] throws
    the assertion error. *)
Theorem concurrent_read_assertion :
  (∀ w b o n r, request (this w) = Some r →
     _read w b o n = (Failed concurrentRead, w)) ∧
  (∀ w b o n d k w1 b' o' n',
     read w b o n = Some (Awaiting d k, w1) → 0 < n' →
     read w1 b' o' n' = Some (Thrown concurrentRead, w1) ∧
     peek w1 b' o' n' = Some (Thrown concurrentRead, w1)) ∧
  (∀ w, reachable w →
     request (this w) = None ∧
     ∀ b o n a w',
       read w b o n = Some (a, w') ∨ peek w b o n = Some (a, w') →
       a ≠ Thrown concurrentRead).
Proof.
  split; [intros; by eapply _read_busy|]. split.
  - intros w b o n d k w1 b' o' n' Hread Hn'.
    apply read_outcome in Hread as (_ & _ & br & _ & _ & Hr & _ & Hq & He).
    assert (Hread' : read w1 b' o' n' = Some (Thrown concurrentRead, w1)).
    { unfold read. rewrite bool_decide_eq_false_2 by lia.
      rewrite Hq, He. simpl. rewrite bool_decide_eq_true_2 by done. simpl.
      destruct n' as [|n']; [lia|]. simpl. rewrite Hq, He.
      rewrite bool_decide_eq_true_2 by lia. simpl.
      unfold _read. by rewrite Hr. }
    split; [done|]. unfold peek. by rewrite Hread'.
  - intros w Hreach. pose proof (reachable_idle w Hreach) as Hidle.
    split; [done|]. intros b o n a w' [Hread|Hpeek] ->.
    + apply read_outcome in Hread as (_ & _ & [(? & _)|(_ & ?)]); done.
    + apply peek_outcome in Hpeek.
      apply read_outcome in Hpeek as (_ & _ & [(? & _)|(_ & ?)]); done.
Qed.

(** C10.  With nothing in the peek queue, [peek] with length [0] returns
    [0] and leaves one chunk of length zero in the queue.  When the
    stream then terminates (with any error [err]), a [read] of a positive
    length finds the queue not empty, does not throw, takes the empty
    chunk off and returns [0]; without the [peek] the same [read] throws
    the End-Of-Stream error. *)
Theorem peek_of_length_zero_hides_end_of_stream w a o b o' len err :
  peekQueue (this w) = [] →
  0 < len →
  ∃ w1 w3,
    peek w a o 0 = Some (Returned 0, w1) ∧
    peekQueue (this w1) = [slice a o (o + 0)] ∧
    blength (slice a o (o + 0)) = 0 ∧
    read (reject w1 err) b o' len = Some (Returned 0, w3) ∧
    peekQueue (this w3) = [] ∧
    read (reject w err) b o' len = Some (Thrown endOfStreamError, reject w err).
Proof.
  intros Hq Hlen.
  assert (Hzero : blength (slice a o (o + 0)) = 0) by (simpl; lia).
  assert (Hpeek : peek w a o 0 = Some (Returned 0, push w (slice a o (o + 0)))) by done.
  revert Hzero Hpeek. generalize (slice a o (o + 0)). intros c Hzero Hpeek.
  pose proof (λ w0, reject_endOfStream w0 err) as Heos.
  pose proof (λ w0, reject_peekQueue w0 err) as Hqueue.
  set (w1 := push w c).
  destruct (read_unfold (reject w1 err) b o' len) as (w3 & _ & _ & Hempty & _ & Hread).
  { done. }
  { rewrite Hqueue. by intros [? _]. }
  rewrite Hqueue in Hread, Hempty. simpl in Hread, Hempty.
  rewrite Hq in Hread, Hempty. simpl in Hread, Hempty.
  rewrite Hzero in Hread, Hempty. simpl in Hread, Hempty.
  rewrite Nat.min_0_r in Hread, Hempty.
  rewrite Heos, andb_false_r in Hread.
  exists w1, w3. split; [done|]. split; [by subst w1; simpl; rewrite Hq|].
  split; [done|]. split; [done|]. split; [by apply Hempty|].
  unfold read. rewrite bool_decide_eq_false_2 by lia.
  by rewrite Hqueue, Hq, Heos.
Qed.

End Claims.

(** ** The claims on the example worlds *)

(** The stream of the examples hands out at most what is asked for. *)
Lemma node_stream_bounded : bounded_reads NodeStream.
Proof.
  intros st size chunk st'. simpl.
  repeat case_bool_decide; destruct (ended st); simpl;
    intros Heq; inversion Heq; subst; rewrite ?length_take; lia.
Qed.

(** C1.  The stream holds its last byte and has ended, but the [end]
    event has not been raised yet.  [peek] of length 2 returns 1 and the
    byte ["a"], and leaves it in the peek queue.  The [read] of length 2
    that follows takes the byte from the queue, asks the stream for one
    more, and has to wait.  The [end] event rejects its promise: the
    [read] throws the End-Of-Stream error, and the byte is in the peek
    queue no more. *)
Theorem peek_then_read_at_end_of_stream :
  match peek last_byte bufA 0 2 with
  | Some (Returned 1, w1) =>
      load (heap w1) 0 1 = bytes "a" ∧
      map (toBytes (heap w1)) (peekQueue (this w1)) = [bytes "a"] ∧
      endOfStream (this w1) = false ∧
      match read w1 bufB 0 2 with
      | Some (Awaiting d (AfterRead 1), w2) =>
          match dispatch w2 end_ with
          | Some w3 =>
              match resume w3 d (AfterRead 1) with
              | Some (Thrown e, w4) =>
                  e = endOfStreamError ∧ peekQueue (this w4) = []
              | _ => False
              end
          | None => False
          end
      | _ => False
      end
  | _ => False
  end.
Proof. by_running. Qed.

(** C7.  The same stream.  [peek] of length 2 returns 1 and the byte
    ["a"].  A second [peek] of length 2, with no call in between, takes
    the byte from the peek queue, writes it to its buffer, asks the
    stream for one more, and has to wait.  The [end] event rejects its
    promise: the second [peek] yields no result but throws the
    End-Of-Stream error, nothing is pushed back, and the byte of the
    first [peek] is in the peek queue no more. *)
Theorem peek_then_peek_at_end_of_stream :
  match peek last_byte bufA 0 2 with
  | Some (Returned 1, w1) =>
      load (heap w1) 0 1 = bytes "a" ∧
      map (toBytes (heap w1)) (peekQueue (this w1)) = [bytes "a"] ∧
      endOfStream (this w1) = false ∧
      match peek w1 bufB 0 2 with
      | Some (Awaiting d (AfterPeek 1 b o), w2) =>
          b = bufB ∧ o = 0 ∧
          load (heap w2) 8 1 = bytes "a" ∧
          peekQueue (this w2) = [] ∧
          match dispatch w2 end_ with
          | Some w3 =>
              match resume w3 d (AfterPeek 1 b o) with
              | Some (Thrown e, w4) =>
                  e = endOfStreamError ∧ peekQueue (this w4) = []
              | _ => False
              end
          | None => False
          end
      | _ => False
      end
  | _ => False
  end.
Proof. by_running. Qed.

(** C3.  A reader whose stream ends without a byte.  [peek] of length 0
    returns 0 and leaves a chunk of no byte in the peek queue; the [end]
    event sets [endOfStream].  The peek queue now holds no byte, and the
    termination has been observed: yet a [read] of length 1 does not
    throw, it takes the chunk off and returns 0.  The same [read] made
    again throws the End-Of-Stream error, as it does on a reader that has
    seen [end] without the [peek]. *)
Theorem read_at_end_of_stream_with_no_byte_queued :
  match peek no_bytes bufA 0 0 with
  | Some (Returned 0, w1) =>
      match dispatch w1 end_ with
      | Some w2 =>
          endOfStream (this w2) = true ∧
          length (peekQueue (this w2)) = 1 ∧
          buffered (peekQueue (this w2)) = 0 ∧
          queued (heap w2) (peekQueue (this w2)) = [] ∧
          match read w2 bufB 0 1 with
          | Some (Returned 0, w3) =>
              peekQueue (this w3) = [] ∧
              read w3 bufB 0 1 = Some (Thrown endOfStreamError, w3)
          | _ => False
          end
      | None => False
      end
  | _ => False
  end ∧
  match dispatch no_bytes end_ with
  | Some w2 =>
      endOfStream (this w2) = true ∧
      buffered (peekQueue (this w2)) = 0 ∧
      read w2 bufB 0 1 = Some (Thrown endOfStreamError, w2)
  | None => False
  end.
Proof. by_running. Qed.

(** [read_after_termination] on a queue of three bytes: two bytes are
    asked for and delivered. *)
Lemma read_after_termination_witness :
  0 < 2 ∧ endOfStream (this three_peeked_ended) = true ∧
  ∃ w', read three_peeked_ended bufB 0 2 = Some (Returned 2, w') ∧
        load (heap w') 8 2 = bytes "xy".
Proof.
  split; [lia|]. split; [reflexivity|].
  destruct (read_after_termination three_peeked_ended bufB 0 2) as [_ Hq];
    [lia|reflexivity|].
  destruct Hq as (w' & Hread & _ & Hload); [discriminate|].
  exists w'. split; [exact Hread|].
  apply Hload; [simpl; lia|constructor].
Defined.

(** C4 on the same queue: five bytes are asked for, three are there. *)
Lemma read_short_after_termination_witness :
  endOfStream (this three_peeked_ended) = true ∧
  0 < buffered (peekQueue (this three_peeked_ended)) ∧
  buffered (peekQueue (this three_peeked_ended)) < 5 ∧
  ∃ w', read three_peeked_ended bufB 0 5 = Some (Returned 3, w') ∧
        peekQueue (this w') = [] ∧
        load (heap w') 8 3 = bytes "xyz".
Proof.
  split; [reflexivity|]. split; [simpl; lia|]. split; [simpl; lia|].
  destruct (read_short_after_termination three_peeked_ended bufB 0 5)
    as (w' & _ & Hread & _ & Hq & Hload); [reflexivity|simpl; lia|simpl; lia|].
  exists w'. split; [exact Hread|]. split; [exact Hq|].
  apply Hload; [simpl; lia|constructor].
Defined.

(** C10 on a reader that has not read anything yet. *)
Lemma peek_of_length_zero_hides_end_of_stream_witness :
  peekQueue (this six_bytes) = [] ∧ 0 < 1 ∧
  ∃ w1 w3,
    peek six_bytes bufA 0 0 = Some (Returned 0, w1) ∧
    read (reject w1 endOfStreamError) bufB 0 1 = Some (Returned 0, w3) ∧
    read (reject six_bytes endOfStreamError) bufB 0 1
      = Some (Thrown endOfStreamError, reject six_bytes endOfStreamError).
Proof.
  split; [reflexivity|]. split; [lia|].
  destruct (peek_of_length_zero_hides_end_of_stream
              six_bytes bufA 0 bufB 0 1 endOfStreamError)
    as (w1 & w3 & Hpeek & _ & _ & Hread & _ & Hthrow); [reflexivity|lia|].
  exists w1, w3. split; [exact Hpeek|]. split; [exact Hread|exact Hthrow].
Defined.

(** C2, as the claim has it, fails.  The stream holds ["ab"].  A [peek]
    of two bytes, then a [peek] of one byte: the [read] inside the second
    [peek] pushes what is left of the chunk, ["b"], and the [peek] then
    pushes its slice, ["a"].  Of the two chunks the one pushed first is
    not the one the next [read] takes from: it delivers ["a"], from the
    chunk pushed last, and the chunk pushed first stays in the queue. *)
Lemma peek_queue_not_first_pushed_first :
  match peek two_bytes bufA 0 2 with
  | Some (Returned 2, w1) =>
      match read w1 bufB 0 1, peek w1 bufB 0 1 with
      | Some (Returned 1, w1'), Some (Returned 1, w2) =>
          peekQueue (this w1') = [mkBuffer 1 1] ∧
          peekQueue (this w2) = [mkBuffer 8 1; mkBuffer 1 1] ∧
          toBytes (heap w2) (mkBuffer 1 1) = bytes "b" ∧
          match read w2 bufC 0 1 with
          | Some (Returned 1, w3) =>
              load (heap w3) 16 1 = bytes "a" ∧
              load (heap w3) 16 1 ≠ toBytes (heap w2) (mkBuffer 1 1) ∧
              peekQueue (this w3) = [mkBuffer 1 1]
          | _ => False
          end
      | _, _ => False
      end
  | _ => False
  end.
Proof. by_running. Qed.

(** C2, as the code has it, on a chunk of three bytes of which two are
    read. *)
Lemma peek_queue_last_pushed_first_witness :
  0 < 2 ∧ 0 + 2 ≤ blength bufB ∧ 2 < blength (mkBuffer 0 3) ∧
  ∃ w', read three_peeked bufB 0 2 = Some (Returned 2, w') ∧
        peekQueue (this w') = [mkBuffer 2 1].
Proof.
  split; [lia|]. split; [simpl; lia|]. split; [simpl; lia|].
  destruct (peek_queue_last_pushed_first
              (constructor (store zeros 0 (bytes "xyz")) (mkNodeStream [] false))
              (mkBuffer 0 3) bufB 0 2) as [_ Hpart]; [lia|simpl; lia|].
  destruct Hpart as (w' & Hread & Hq & _); [simpl; lia|].
  exists w'. split; [exact Hread|exact Hq].
Defined.



(** C6 on a [read] that waits for the stream when [end] is raised. *)
Lemma termination_signals_reject_witness :
  end_once waiting = true ∧
  endOfStream (this waiting) = false ∧
  dispatch waiting end_ = Some (reject (set_end_once waiting false) endOfStreamError) ∧
  promises (reject (set_end_once waiting false) endOfStreamError) !! 0
    = Some (RejectedWith endOfStreamError).
Proof.
  split; [reflexivity|]. split; [reflexivity|].
  split.
  - apply (termination_signals_reject waiting endOfStreamError). reflexivity.
  - destruct (termination_signals_reject (set_end_once waiting false) endOfStreamError)
      as (_ & _ & _ & _ & _ & _ & _ & (_ & _ & Hsettle) & _).
    apply (Hsettle (mkRequest bufA 0 2 0)); reflexivity.
Defined.

(** C9: a reader just made is idle, and a [read] made while another
    waits throws the assertion error. *)
Lemma concurrent_read_assertion_witness :
  reachable six_bytes ∧ request (this six_bytes) = None ∧
  read waiting bufB 0 1 = Some (Thrown concurrentRead, waiting).
Proof.
  destruct (@concurrent_read_assertion NodeStream _) as (_ & Hbusy & Hnever).
  split; [apply reach_new|]. split.
  - apply Hnever. apply reach_new.
  - apply (Hbusy no_bytes bufA 0 2 0 (AfterRead 0)); [reflexivity|lia].
Defined.

(** X15 on a stream of six bytes: a [peek] of two bytes, then a [peek]
    of three. *)
Lemma repeated_peek_prefix_witness :
  bounded_reads NodeStream ∧
  request (this six_bytes) = None ∧ 2 ≤ 3 ∧
  0 + 2 ≤ blength bufA ∧ 0 + 3 ≤ blength bufB ∧
  completes (peek six_bytes bufA 0 2) (Returned 2) six_bytes_peeked ∧
  completes (peek six_bytes_peeked bufB 0 3) (Returned 3) six_bytes_peeked_twice ∧
  take 2 (load (heap six_bytes_peeked_twice) (byteOffset bufB + 0) 3)
    = load (heap six_bytes_peeked) (byteOffset bufA + 0) 2.
Proof.
  assert (H1 : completes (peek six_bytes bufA 0 2) (Returned 2) six_bytes_peeked)
    by (split; reflexivity).
  assert (H2 : completes (peek six_bytes_peeked bufB 0 3) (Returned 3)
                         six_bytes_peeked_twice) by (split; reflexivity).
  split; [exact node_stream_bounded|]. split; [reflexivity|]. split; [lia|].
  split; [simpl; lia|]. split; [simpl; lia|]. split; [exact H1|]. split; [exact H2|].
  apply (repeated_peek_prefix six_bytes bufA 0 2 2 six_bytes_peeked six_bytes_peeked
                              bufB 0 3 node_stream_bounded);
    [reflexivity|lia|simpl; lia|simpl; lia|exact H1|apply rtc_refl|exact H2].
Defined.

(** The two runs of the specification, on a Node stream. *)
Example run_ab_cd_end :
  let w0 := constructor zeros (mkNodeStream (bytes "ab") false) in
  match peek w0 bufA 0 2 with
  | Some (Returned 2, w1) =>
      load (heap w1) 0 2 = bytes "ab" ∧
      match read w1 bufB 0 2 with
      | Some (Returned 2, w2) =>
          load (heap w2) 8 2 = bytes "ab" ∧
          match read (set_s w2 (mkNodeStream (bytes "cd") false)) bufB 0 2 with
          | Some (Returned 2, w3) =>
              load (heap w3) 8 2 = bytes "cd" ∧
              match dispatch (set_s w3 (mkNodeStream [] true)) end_ with
              | Some w4 => read w4 bufB 0 1 = Some (Thrown endOfStreamError, w4)
              | None => False
              end
          | _ => False
          end
      | _ => False
      end
  | _ => False
  end.
Proof. by_running. Qed.

Example run_abcdef :
  match peek six_bytes bufA 0 3 with
  | Some (Returned 3, w1) =>
      load (heap w1) 0 3 = bytes "abc" ∧
      match read w1 bufB 0 4 with
      | Some (Returned 4, w2) =>
          load (heap w2) 8 4 = bytes "abcd" ∧
          match read w2 bufA 0 2 with
          | Some (Returned 2, w3) => load (heap w3) 0 2 = bytes "ef"
          | _ => False
          end
      | _ => False
      end
  | _ => False
  end.
Proof. by_running. Qed.

(** A [peek] that has to wait: the bytes come in, the [readable] event
    runs [tryRead], and the call goes on with what was read. *)
Example run_waiting_peek :
  match peek no_bytes bufA 0 2 with
  | Some (Awaiting d k, w1) =>
      match dispatch w1 (arrival (mkNodeStream (bytes "ab") false)) with
      | Some w2 =>
          match dispatch w2 readable with
          | Some w3 =>
              match resume w3 d k with
              | Some (Returned 2, w4) =>
                  load (heap w4) 0 2 = bytes "ab" ∧
                  map (toBytes (heap w4)) (peekQueue (this w4)) = [bytes "ab"] ∧
                  request (this w4) = None ∧
                  readable_once w4 = 0
              | _ => False
              end
          | None => False
          end
      | None => False
      end
  | _ => False
  end.
Proof. by_running. Qed.

(** * More of the code *)

(** ** The bytes of the peek queue *)

Lemma toBytes_slice_from m c n :
  n ≤ blength c → toBytes m (slice_from c n) = drop n (toBytes m c).
Proof.
  intros Hn. unfold toBytes, slice_from, slice. simpl.
  replace (n `min` blength c) with n by lia. rewrite Nat.min_id.
  replace (blength c) with (n + (blength c - n)) at 2 by lia.
  rewrite load_app, drop_app_length'; [done|by rewrite length_load].
Qed.

Lemma take_min_length {A} (l : list A) n : take (n `min` length l) l = take n l.
Proof.
  destruct (decide (n ≤ length l)).
  - by replace (n `min` length l) with n by lia.
  - replace (n `min` length l) with (length l) by lia.
    rewrite firstn_all. symmetry. apply firstn_all2. lia.
Qed.

Section QueueBytes.
Context {Stream : Type} `{!Readable Stream}.
Implicit Types (w : World Stream) (r : IReadRequest).

(** What the loop leaves in the queue, read in any one memory: the bytes
    it has not taken. *)
Lemma consumePeeked_queue fuel : ∀ w target offset bytesRead remaining w' br' rem',
  consumePeeked fuel w target offset bytesRead remaining = Some (w', br', rem') →
  ∀ m, queued m (peekQueue (this w'))
       = drop (remaining `min` buffered (peekQueue (this w)))
              (queued m (peekQueue (this w))).
Proof.
  induction fuel as [|fuel IH]; intros w target offset bytesRead remaining w' br' rem';
    [done|].
  simpl. destruct (peekQueue (this w)) as [|c rest] eqn:Hq.
  { intros [= <- _ _] m. rewrite Hq. simpl. by rewrite drop_nil. }
  case_bool_decide as Hrem; cycle 1.
  { intros [= <- _ _] m. rewrite Hq. by replace (remaining `min` _) with 0 by lia. }
  set (lenCopy := blength c `min` remaining).
  intros Hloop m. apply IH with (m := m) in Hloop. rewrite Hloop. clear Hloop.
  case_bool_decide as Hpart; simpl.
  - replace (remaining - lenCopy) with 0 by lia. simpl.
    replace (remaining `min` (blength c + buffered rest)) with remaining by lia.
    replace lenCopy with remaining by lia.
    rewrite toBytes_slice_from by lia.
    rewrite drop_0, drop_app_le; [done|]. unfold toBytes. rewrite length_load. lia.
  - replace (remaining `min` (blength c + buffered rest))
      with (length (toBytes m c) + (remaining - lenCopy) `min` buffered rest)
      by (unfold toBytes; rewrite length_load; lia).
    by rewrite drop_app_add'.
Qed.

Lemma Forall_apart_tail addr n (q : list Buffer) :
  Forall (apart addr n) q → Forall (apart addr n) (tail q).
Proof. destruct 1; [constructor|done]. Qed.

(** The bytes of a read that the queue serves alone. *)
Lemma read_queue_bytes w target offset len :
  0 < len →
  offset + len ≤ blength target →
  let q := peekQueue (this w) in
  let dst := byteOffset target + offset in
  let k := len `min` buffered q in
  Forall (apart dst len) q →
  q ≠ [] →
  k = len ∨ endOfStream (this w) = true →
  ∃ w', read w target offset len = Some (Returned k, w') ∧
        same_object w w' ∧
        (∀ x, x < dst ∨ dst + k ≤ x → heap w' x = heap w x) ∧
        load (heap w') dst k = take len (queued (heap w) q) ∧
        queued (heap w') (peekQueue (this w')) = drop len (queued (heap w) q).
Proof.
  intros Hlen Hin q dst k Hapart Hq Hdone.
  destruct (read_unfold w target offset len)
    as (w1 & Hloop & Hsame & _ & Hmem & Hread); [done|by intros [? _]|].
  fold q in Hloop, Hmem, Hread. fold dst in Hmem. fold k in Hloop, Hmem, Hread.
  destruct (Hmem Hin) as [Hout Hload].
  exists w1. split.
  { rewrite Hread. destruct Hdone as [Hk|Heos].
    - rewrite Hk, Nat.sub_diag. done.
    - by rewrite Heos, andb_false_r. }
  split; [done|]. split; [done|]. split.
  - rewrite Hload by (by apply Forall_apart_tail).
    subst k. rewrite <- length_queued with (m := heap w). apply take_min_length.
  - rewrite (consumePeeked_queue _ _ _ _ _ _ _ _ _ Hloop (heap w1)). fold q.
    rewrite (queued_ext (heap w) (heap w1) q).
    + fold k. subst k. rewrite <- length_queued with (m := heap w).
      destruct (decide (len ≤ length (queued (heap w) q))).
      * by replace (len `min` _) with len by lia.
      * rewrite !drop_ge by lia. done.
    + eapply Forall_impl; [exact Hapart|]. intros c Hc x Hx.
      apply Hout. unfold apart in Hc. fold dst in Hc. lia.
Qed.

(** The bytes of a read that empties the queue and gets a chunk from the
    stream at once. *)
Lemma read_chunk_bytes w target offset len chunk s' :
  endOfStream (this w) = false →
  request (this w) = None →
  let q := peekQueue (this w) in
  let dst := byteOffset target + offset in
  buffered q < len →
  stream_read (s (this w)) (len - buffered q) = (Some chunk, s') →
  length chunk ≤ len - buffered q →
  offset + len ≤ blength target →
  Forall (apart dst len) (tail q) →
  ∃ w', read w target offset len = Some (Returned (buffered q + length chunk), w') ∧
        s (this w') = s' ∧
        peekQueue (this w') = [] ∧
        (∀ x, x < dst ∨ dst + len ≤ x → heap w' x = heap w x) ∧
        load (heap w') dst (buffered q + length chunk) = queued (heap w) q ++ chunk.
Proof.
  intros Heos Hreq q dst Hshort Hstream Hchunk Hin Hapart.
  destruct (read_unfold w target offset len)
    as (w1 & _ & Hsame & Hempty & Hmem & Hread); [lia|by rewrite Heos; intros [_ ?]|].
  fold q in Hempty, Hmem, Hread. fold dst in Hmem.
  replace (len `min` buffered q) with (buffered q) in * by lia.
  destruct (Hmem Hin) as [Hout Hload].
  destruct Hsame as (_ & _ & _ & _ & _ & Hs & Hr & _).
  rewrite Heos, bool_decide_eq_true_2 in Hread by lia. simpl in Hread.
  unfold _read in Hread. rewrite Hr, Hreq, Hs, Hstream in Hread.
  eexists. split; [exact Hread|]. simpl.
  split; [done|]. split; [apply Hempty; lia|]. split.
  - intros x Hx. unfold copy_chunk. rewrite store_outside.
    + apply Hout. lia.
    + rewrite length_take. fold dst. lia.
  - rewrite load_app. f_equal.
    + rewrite <- (firstn_all (queued (heap w) q)), length_queued.
      rewrite <- Hload by done. apply load_ext. intros x Hx.
      apply copy_chunk_below. fold dst. lia.
    + unfold copy_chunk. rewrite take_ge by lia.
      replace (byteOffset target + (offset + buffered q)) with (dst + buffered q)
        by (subst dst; lia).
      apply load_store_same.
Qed.

End QueueBytes.

Section QueueExtras.
Context {Stream : Type} `{!Readable Stream}.
Implicit Types (w : World Stream) (r : IReadRequest).

(** X1.  A [read] of no more bytes than the peek queue holds returns at
    once with all of them, whether or not the stream has terminated, and
    calls nothing on the stream.  The bytes delivered are the first
    queued bytes in their order, and the queue is left with the others,
    in their order (the target sharing no memory with the chunks). *)
Theorem read_served_by_the_queue w target offset len :
  0 < len →
  offset + len ≤ blength target →
  let q := peekQueue (this w) in
  let dst := byteOffset target + offset in
  len ≤ buffered q →
  Forall (apart dst len) q →
  ∃ w', read w target offset len = Some (Returned len, w') ∧
        same_object w w' ∧
        load (heap w') dst len = take len (queued (heap w) q) ∧
        queued (heap w') (peekQueue (this w')) = drop len (queued (heap w) q).
Proof.
  intros Hlen Hin q dst Hle Hapart.
  destruct (read_queue_bytes w target offset len Hlen Hin Hapart)
    as (w' & Hread & Hsame & _ & Hload & Hrest).
  { intros Hq. fold q in Hq. rewrite Hq in Hle. simpl in Hle. lia. }
  { left. fold q. lia. }
  fold q dst in Hread, Hload, Hrest.
  replace (len `min` buffered q) with len in * by lia.
  by exists w'.
Qed.

(** X2.  A [read] of more bytes than the peek queue holds, made while the
    stream has not terminated and hands out a chunk at once: the queue is
    emptied, the stream is asked for the missing bytes only, and the
    caller gets the queued bytes followed by the chunk, at the offsets
    that follow one another. *)
Theorem read_queue_then_stream w target offset len chunk s' :
  bounded_reads Stream →
  endOfStream (this w) = false →
  request (this w) = None →
  let q := peekQueue (this w) in
  let dst := byteOffset target + offset in
  buffered q < len →
  stream_read (s (this w)) (len - buffered q) = (Some chunk, s') →
  offset + len ≤ blength target →
  Forall (apart dst len) (tail q) →
  ∃ w', read w target offset len = Some (Returned (buffered q + length chunk), w') ∧
        s (this w') = s' ∧
        peekQueue (this w') = [] ∧
        load (heap w') dst (buffered q + length chunk) = queued (heap w) q ++ chunk.
Proof.
  intros Hb Heos Hreq q dst Hshort Hstream Hin Hapart.
  destruct (read_chunk_bytes w target offset len chunk s')
    as (w' & Hread & Hs & Hq & _ & Hload); try done.
  { by eapply Hb. }
  by exists w'.
Qed.

(** X3.  [peek] does not consume.  After a [peek] that returned at once,
    the peek queue holds the bytes it held before, in their order,
    followed by the bytes [fresh] the [peek] pulled from the stream: none
    when the queue holds enough or the stream has terminated, and the
    stream is then left alone; otherwise the chunk the stream handed out
    when asked for the missing bytes.  The caller's buffer holds the
    first [length] of the old queued bytes followed by [fresh], and their
    number is what [peek] returns. *)
Theorem peek_keeps_bytes_queued w target offset len k w1 :
  bounded_reads Stream →
  offset + len ≤ blength target →
  let q := peekQueue (this w) in
  let dst := byteOffset target + offset in
  Forall (apart dst len) q →
  peek w target offset len = Some (Returned k, w1) →
  ∃ fresh,
    ((len ≤ buffered q ∨ endOfStream (this w) = true) ∧
       fresh = [] ∧ s (this w1) = s (this w)
     ∨ buffered q < len ∧ endOfStream (this w) = false ∧
       stream_read (s (this w)) (len - buffered q) = (Some fresh, s (this w1))) ∧
    k = len `min` buffered q + length fresh ∧
    k ≤ len ∧
    load (heap w1) dst k = take len (queued (heap w) q) ++ fresh ∧
    queued (heap w1) (peekQueue (this w1)) = queued (heap w) q ++ fresh.
Proof.
  intros Hb Hin q dst Hapart Hpeek.
  apply peek_outcome in Hpeek as (w' & Hread & ->).
  pose proof Hread as Hout. apply read_outcome in Hout as (_ & _ & _ & Hk).
  specialize (Hk Hb).
  simpl. rewrite slice_in_bounds by lia. fold dst.
  change (toBytes (heap w') (mkBuffer dst k)) with (load (heap w') dst k).
  destruct (decide (len = 0)) as [->|Hlen].
  { injection Hread as <- <-. exists []. simpl. rewrite app_nil_r.
    split; [left; split; [left; lia|done]|]. done. }
  destruct (decide (q = [] ∧ endOfStream (this w) = true)) as [[Hq Heos]|Hne].
  { unfold read in Hread. rewrite bool_decide_eq_false_2 in Hread by done.
    fold q in Hread. by rewrite Hq, Heos in Hread. }
  destruct (decide (len ≤ buffered q ∨ endOfStream (this w) = true)) as [Hqueue|Hmore].
  - (* the queue serves the call *)
    destruct (read_queue_bytes w target offset len)
      as (w2 & Hread2 & Hsame & _ & Hload & Hrest); [lia|done|done| | |].
    { intros Hq. fold q in Hq. destruct Hqueue as [Hle|Heos]; [|by apply Hne].
      rewrite Hq in Hle. simpl in Hle. lia. }
    { fold q. destruct Hqueue; [left; lia|by right]. }
    rewrite Hread in Hread2. injection Hread2 as -> ->.
    fold q dst in Hload, Hrest. fold q. exists [].
    rewrite Hload, Hrest, !app_nil_r.
    destruct Hsame as (_ & _ & _ & _ & _ & Hs & _).
    split; [by left|]. split; [simpl; lia|]. split; [done|]. split; [done|].
    apply take_drop.
  - (* the stream is asked *)
    assert (Hshort : buffered q < len) by lia.
    assert (Heos : endOfStream (this w) = false)
      by (destruct (endOfStream (this w)); [exfalso; auto|done]).
    destruct (read_unfold w target offset len) as (w2 & _ & Hsame & _ & _ & Heq);
      [lia|done|].
    fold q in Heq. replace (len `min` buffered q) with (buffered q) in Heq by lia.
    rewrite Heos, bool_decide_eq_true_2 in Heq by lia. simpl in Heq.
    destruct Hsame as (_ & _ & _ & _ & _ & Hs & Hr & _).
    unfold _read in Heq. rewrite Hr, Hs in Heq.
    destruct (request (this w)) as [r|] eqn:Hreq; [congruence|].
    destruct (stream_read (s (this w)) (len - buffered q)) as [[chunk|] s'] eqn:Hstream;
      [|congruence].
    destruct (read_chunk_bytes w target offset len chunk s')
      as (w3 & Hread3 & Hs3 & Hempty & _ & Hload); try done.
    { by eapply Hb. }
    { by apply Forall_apart_tail. }
    rewrite Hread in Hread3. injection Hread3 as -> ->.
    fold q dst in Hload. fold q. exists chunk.
    rewrite Hload, Hempty. simpl. rewrite app_nil_r, Hs3.
    split; [by right|]. split; [lia|]. split; [done|].
    split; [|done]. f_equal. symmetry. apply take_ge. rewrite length_queued. lia.
Qed.

End QueueExtras.

(** ** Waiting for the stream *)

Section Waiting.
Context {Stream : Type} `{!Readable Stream}.
Implicit Types (w : World Stream) (r : IReadRequest).

(** What a [read] that has to wait has done. *)
Lemma read_awaiting w target offset len d k w1 :
  read w target offset len = Some (Awaiting d k, w1) →
  ∃ br s',
    k = AfterRead br ∧ br < len ∧
    stream_read (s (this w)) (len - br) = (None, s') ∧
    s (this w1) = s' ∧
    d = length (promises w) ∧
    promises w1 = promises w ++ [Pending] ∧
    readable_once w1 = S (readable_once w) ∧
    request (this w1) = Some (mkRequest target (offset + br) (len - br) d) ∧
    end_once w1 = end_once w ∧ error_once w1 = error_once w ∧
    close_once w1 = close_once w.
Proof.
  destruct (decide (len = 0)) as [->|Hlen]; [done|].
  destruct (decide (peekQueue (this w) = [] ∧ endOfStream (this w) = true)) as [[Hq He]|Hne].
  { unfold read. rewrite bool_decide_eq_false_2 by done. by rewrite Hq, He. }
  destruct (read_unfold w target offset len) as (w0 & _ & Hsame & _ & _ & ->);
    [lia|done|].
  destruct Hsame as (Hps & Hro & Hend & Herr & Hclose & Hs & Hr & He).
  set (br := len `min` buffered (peekQueue (this w))).
  destruct (bool_decide (0 < len - br) && negb (endOfStream (this w))) eqn:Hmore; [|done].
  apply andb_true_iff in Hmore as [Hk _]. apply bool_decide_eq_true in Hk.
  unfold _read. destruct (request (this w0)); [done|]. rewrite Hs.
  destruct (stream_read (s (this w)) (len - br)) as [[chunk|] s'] eqn:Hread; [done|].
  intros [= <- <- <-]. exists br, s'. simpl.
  rewrite Hps, Hro, Hend, Herr, Hclose. repeat split; auto. lia.
Qed.

(** X4.  A [read] that waits, at the [readable] event that follows: when
    the stream now hands out a chunk, the chunk is written behind the
    bytes already delivered, the call goes on and returns their number
    plus the length of the chunk, and neither request nor listener is
    left; when the stream still hands out nothing, the call keeps
    waiting, with the same request and one listener again. *)
Theorem readable_while_waiting w target offset len d k w1 s1 :
  readable_once w = 0 →
  read w target offset len = Some (Awaiting d k, w1) →
  ∃ br, k = AfterRead br ∧ br < len ∧
    (∀ chunk s2, stream_read s1 (len - br) = (Some chunk, s2) →
       ∃ w3 w4,
         dispatch (set_s w1 s1) readable = Some w3 ∧
         resume w3 d k = Some (Returned (br + length chunk), w4) ∧
         request (this w4) = None ∧ readable_once w4 = 0 ∧ s (this w4) = s2 ∧
         (offset + len ≤ blength target → length chunk ≤ len - br →
            load (heap w4) (byteOffset target + offset + br) (length chunk) = chunk)) ∧
    (∀ s2, stream_read s1 (len - br) = (None, s2) →
       ∃ w3,
         dispatch (set_s w1 s1) readable = Some w3 ∧
         resume w3 d k = None ∧
         request (this w3) = request (this w1) ∧
         promises w3 = promises w1 ∧
         readable_once w3 = 1 ∧
         heap w3 = heap w1).
Proof.
  intros Hzero Hread.
  apply read_awaiting in Hread
    as (br & s' & -> & Hbr & _ & _ & -> & Hps & Hro & Hr & _).
  rewrite Hzero in Hro.
  exists br. split; [done|]. split; [done|]. split.
  - intros chunk s2 Hstream.
    assert (Hd : promises w1 !! length (promises w) = Some Pending)
      by (rewrite Hps; apply list_lookup_middle; done).
    eexists _, _. split.
    { simpl. rewrite Hro. simpl. unfold tryRead. simpl. rewrite Hr. simpl.
      rewrite Hstream. simpl. reflexivity. }
    unfold resume. simpl. rewrite settle_pending by done.
    split; [reflexivity|]. simpl. rewrite Hro.
    split; [done|]. split; [done|]. split; [done|].
    intros Hin Hchunk. unfold copy_chunk. rewrite take_ge by lia.
    replace (byteOffset target + (offset + br)) with (byteOffset target + offset + br) by lia.
    apply load_store_same.
  - intros s2 Hstream.
    eexists. split.
    { simpl. rewrite Hro. simpl. unfold tryRead. simpl. rewrite Hr. simpl.
      rewrite Hstream. simpl. reflexivity. }
    unfold resume. simpl. rewrite Hps, list_lookup_middle by done.
    by rewrite Hro.
Qed.

(** X5.  A chunk that [tryRead] has got for the request that waits is
    not lost when the stream terminates before the call goes on:
    [reject] finds the promise resolved and leaves it so, and the call
    returns the bytes, with [endOfStream] set. *)
Theorem resolved_read_survives_termination w r chunk s' err br :
  request (this w) = Some r →
  promises w !! deferred r = Some Pending →
  stream_read (s (this w)) (length_ r) = (Some chunk, s') →
  ∃ w1 w3,
    tryRead w = (None, w1) ∧
    promises (reject w1 err) !! deferred r = Some (Resolved (length chunk)) ∧
    resume (reject w1 err) (deferred r) (AfterRead br)
      = Some (Returned (br + length chunk), w3) ∧
    endOfStream (this w3) = true ∧
    request (this w3) = None ∧
    heap w3 = copy_chunk (heap w) chunk (buffer r) (offset r).
Proof.
  intros Hr Hp Hstream.
  eexists _, _. split.
  { unfold tryRead. rewrite Hr, Hstream. reflexivity. }
  assert (Hres : promises (reject
             (set_promises
                (set_heap (set_s w s') (copy_chunk (heap (set_s w s')) chunk (buffer r) (offset r)))
                (settle (deferred r) (Resolved (length chunk))
                   (promises (set_heap (set_s w s')
                      (copy_chunk (heap (set_s w s')) chunk (buffer r) (offset r))))))
             err) !! deferred r = Some (Resolved (length chunk))).
  { rewrite reject_promises. simpl. rewrite Hr.
    rewrite (settle_settled _ _ _ (Resolved (length chunk)));
      [by apply settle_pending|by apply settle_pending|done]. }
  split; [exact Hres|]. unfold resume. rewrite Hres.
  split; [reflexivity|]. simpl.
  split; [apply reject_endOfStream|]. split; [done|]. by rewrite reject_heap.
Qed.

(** X6.  Of two termination signals that follow one another while a
    [read] waits, the first one decides: the promise is rejected with the
    error of the first signal and the second leaves it alone, so the
    [read] throws the first error.  So it is for [error] followed by
    [close]: the [read] throws the error of the stream, not 'Stream
    closed'. *)
Theorem first_termination_signal_wins w r e1 e2 k :
  request (this w) = Some r →
  promises w !! deferred r = Some Pending →
  let w2 := reject (reject w e1) e2 in
  (promises w2 !! deferred r = Some (RejectedWith e1) ∧
   resume w2 (deferred r) k = Some (Thrown e1, set_request w2 None)) ∧
  (error_once w = true → close_once w = true →
     ∃ w1 w2',
       dispatch w (error_ e1) = Some w1 ∧ dispatch w1 close = Some w2' ∧
       resume w2' (deferred r) k = Some (Thrown e1, set_request w2' None)).
Proof.
  intros Hr Hp w2.
  assert (Hfirst : ∀ w0, request (this w0) = Some r → promises w0 = promises w →
            promises (reject w0 e1) !! deferred r = Some (RejectedWith e1)).
  { intros w0 Hr0 Hp0. rewrite reject_promises, Hr0, Hp0. by apply settle_pending. }
  assert (Hsecond : ∀ w0 e, promises w0 !! deferred r = Some (RejectedWith e1) →
            request (this w0) = None →
            promises (reject w0 e) !! deferred r = Some (RejectedWith e1)).
  { intros w0 e Hp0 Hr0. by rewrite reject_promises, Hr0. }
  split.
  - assert (Hp2 : promises w2 !! deferred r = Some (RejectedWith e1)).
    { apply Hsecond; [by apply Hfirst|apply reject_request]. }
    split; [done|]. unfold resume. by rewrite Hp2.
  - intros Herr Hclose. eexists _, _.
    split; [by simpl; rewrite Herr|]. split.
    { simpl. destruct (reject_listeners (set_error_once w false) e1) as (_ & _ & ->).
      simpl. rewrite Hclose. reflexivity. }
    assert (Hp2 : promises (reject (set_close_once (reject (set_error_once w false) e1) false)
                              streamClosedError) !! deferred r = Some (RejectedWith e1)).
    { apply Hsecond; [by apply (Hfirst (set_error_once w false))|apply reject_request]. }
    unfold resume. by rewrite Hp2.
Qed.

(** X7.  A termination signal that rejects the [read] that waits leaves
    the [readable] listener of that [read] registered.  The [read]
    throws the error of the signal; a [readable] event that comes after
    it runs [tryRead] with no request, and [tryRead] throws a
    [TypeError]. *)
Theorem readable_after_rejection w target offset len d k w1 err :
  read w target offset len = Some (Awaiting d k, w1) →
  let w2 := reject w1 err in
  ∃ w3,
    resume w2 d k = Some (Thrown err, w3) ∧
    readable_once w3 = S (readable_once w) ∧
    request (this w3) = None ∧
    fst (emit_readable (readable_once w3) w3) = Some TypeError ∧
    dispatch w3 readable = None.
Proof.
  intros Hread w2.
  apply read_awaiting in Hread
    as (br & s' & -> & _ & _ & _ & -> & Hps & Hro & Hr & _).
  assert (Hp : promises w2 !! length (promises w) = Some (RejectedWith err)).
  { subst w2. rewrite reject_promises, Hr. simpl. apply settle_pending.
    rewrite Hps. by apply list_lookup_middle. }
  assert (Hro2 : readable_once w2 = S (readable_once w)).
  { subst w2. unfold reject. simpl. rewrite Hr. simpl. done. }
  clearbody w2.
  exists (set_request w2 None). unfold resume, Deferred. rewrite Hp.
  split; [done|]. split; [done|]. split; [done|].
  simpl. rewrite Hro2. simpl. done.
Qed.

(** X11.  Once the termination of the stream has been observed and the
    peek queue is empty, every [read] and every [peek] of a positive
    length throws the End-Of-Stream error and changes nothing, whatever
    events the stream raises in between; [peek] pushes nothing. *)
Theorem drained_after_termination w w' target offset len :
  endOfStream (this w) = true →
  peekQueue (this w) = [] →
  rtc env_step w w' →
  0 < len →
  read w' target offset len = Some (Thrown endOfStreamError, w') ∧
  peek w' target offset len = Some (Thrown endOfStreamError, w') ∧
  peekQueue (this w') = [] ∧
  endOfStream (this w') = true.
Proof.
  intros Heos Hq Hsteps Hlen.
  assert (Hkeep : peekQueue (this w') = [] ∧ endOfStream (this w') = true).
  { destruct (request (this w)) as [r|] eqn:Hr.
    - destruct (env_steps_effect r w w') as (_ & _ & Hq' & He' & _);
        [by right|done|]. rewrite Hq', Hq. auto.
    - destruct (env_steps_effect (mkRequest (mkBuffer 0 0) 0 0 0) w w')
        as (_ & _ & Hq' & He' & _); [by left|done|]. rewrite Hq', Hq. auto. }
  destruct Hkeep as [Hq' He'].
  assert (Hread : read w' target offset len = Some (Thrown endOfStreamError, w')).
  { unfold read. rewrite bool_decide_eq_false_2 by lia. by rewrite Hq', He'. }
  split; [done|]. split; [|done]. unfold peek. by rewrite Hread.
Qed.

End Waiting.

(** ** The memory a call writes to *)

Section Window.
Context {Stream : Type} `{!Readable Stream}.
Implicit Types (w : World Stream) (r : IReadRequest).

Lemma copy_chunk_outside m chunk target t n x :
  length chunk ≤ n →
  x < byteOffset target + t ∨ byteOffset target + t + n ≤ x →
  copy_chunk m chunk target t x = m x.
Proof.
  intros Hn Hx. unfold copy_chunk. apply store_outside.
  rewrite length_take. lia.
Qed.

Lemma tryRead_window r w w' x :
  bounded_reads Stream →
  held_by r w →
  tryRead w = (None, w') →
  x < byteOffset (buffer r) + offset r ∨
    byteOffset (buffer r) + offset r + length_ r ≤ x →
  heap w' x = heap w x.
Proof.
  intros Hb Hh. unfold tryRead. destruct Hh as [Hr|Hr]; rewrite Hr; [done|].
  destruct (stream_read (s (this w)) (length_ r)) as [[chunk|] s'] eqn:Hs;
    intros [= <-] Hx; simpl; [|done].
  apply copy_chunk_outside with (n := length_ r); [by eapply Hb|done].
Qed.

Lemma emit_readable_window r n x : ∀ w w',
  bounded_reads Stream →
  held_by r w →
  emit_readable n w = (None, w') →
  x < byteOffset (buffer r) + offset r ∨
    byteOffset (buffer r) + offset r + length_ r ≤ x →
  heap w' x = heap w x.
Proof.
  induction n as [|n IH]; intros w w' Hb Hh; simpl.
  { by intros [= <-]. }
  destruct (tryRead (set_readable_once w (readable_once w - 1))) as [[e|] w1] eqn:Ht;
    [done|].
  intros Hemit Hx.
  pose proof (tryRead_effect r (set_readable_once w (readable_once w - 1)) w1 Hh Ht)
    as [Hh1 _].
  rewrite (IH w1 w' Hb Hh1 Hemit Hx).
  by apply (tryRead_window r (set_readable_once w (readable_once w - 1)) w1).
Qed.

Lemma env_steps_window r w w' x :
  bounded_reads Stream →
  held_by r w →
  rtc env_step w w' →
  x < byteOffset (buffer r) + offset r ∨
    byteOffset (buffer r) + offset r + length_ r ≤ x →
  heap w' x = heap w x.
Proof.
  intros Hb Hh Hsteps Hx. induction Hsteps as [w|w1 w2 w3 Hstep _ IH]; [done|].
  pose proof (env_step_effect r _ _ Hh Hstep) as (Hh2 & _).
  rewrite IH by done. clear IH.
  destruct Hstep as [ev Hev]. destruct ev as [| |err| |s']; simpl in Hev.
  - destruct (emit_readable (readable_once w1) w1) as [[e|] w0] eqn:Hemit; [done|].
    injection Hev as <-. by eapply emit_readable_window.
  - destruct (end_once w1); injection Hev as <-; [by rewrite reject_heap|done].
  - destruct (error_once w1); injection Hev as <-; [by rewrite reject_heap|done].
  - destruct (close_once w1); injection Hev as <-; [by rewrite reject_heap|done].
  - by injection Hev as <-.
Qed.

(** The part of [read] that runs at once writes inside the window. *)
Lemma read_window w target offset len a w1 x :
  bounded_reads Stream →
  offset + len ≤ blength target →
  read w target offset len = Some (a, w1) →
  x < byteOffset target + offset ∨ byteOffset target + offset + len ≤ x →
  heap w1 x = heap w x.
Proof.
  intros Hb Hin Hread Hx.
  destruct (decide (len = 0)) as [->|Hlen]; [by injection Hread as <- <-|].
  destruct (decide (peekQueue (this w) = [] ∧ endOfStream (this w) = true)) as [[Hq He]|Hne].
  { unfold read in Hread. rewrite bool_decide_eq_false_2 in Hread by done.
    rewrite Hq, He in Hread. by injection Hread as <- <-. }
  destruct (read_unfold w target offset len) as (w0 & _ & Hsame & _ & Hmem & Heq);
    [lia|done|].
  destruct (Hmem Hin) as [Hout _]. rewrite Heq in Hread. clear Heq.
  set (k := len `min` buffered (peekQueue (this w))) in *.
  assert (H0 : heap w0 x = heap w x) by (apply Hout; lia).
  destruct (bool_decide (0 < len - k) && negb (endOfStream (this w)));
    [|by injection Hread as <- <-].
  unfold _read in Hread. destruct (request (this w0)); [by injection Hread as <- <-|].
  destruct (stream_read (s (this w0)) (len - k)) as [[chunk|] s'] eqn:Hs;
    injection Hread as <- <-; simpl; [|done].
  rewrite <- H0. apply copy_chunk_outside with (n := len - k); [by eapply Hb|lia].
Qed.

(** X9.  A [read] or a [peek] that runs to its end, at once or after
    waiting for the stream, changes no byte of memory outside the [length]
    bytes at [offset] of the buffer it was given, and when it returns it
    returns no more than [length]. *)
Theorem writes_stay_in_window w target offset len a w' :
  bounded_reads Stream →
  offset + len ≤ blength target →
  completes (read w target offset len) a w' ∨
    completes (peek w target offset len) a w' →
  (∀ x, x < byteOffset target + offset ∨ byteOffset target + offset + len ≤ x →
        heap w' x = heap w x) ∧
  (∀ k, a = Returned k → k ≤ len).
Proof.
  intros Hb Hin Hdone.
  (* both calls are a [read] followed, at most, by a [push] *)
  assert (Hcall : ∃ res, (res = read w target offset len ∨
                          res = peek w target offset len) ∧
                         completes res a w') by (destruct Hdone; eauto).
  clear Hdone. destruct Hcall as (res & Hres & Hdone).
  assert (Hshape : match res with
    | Some (Returned k, w1) =>
        ∃ w0, read w target offset len = Some (Returned k, w0) ∧ heap w1 = heap w0
    | Some (Thrown e, w1) => read w target offset len = Some (Thrown e, w1)
    | Some (Awaiting d kont, w1) =>
        ∃ br, read w target offset len = Some (Awaiting d (AfterRead br), w1) ∧
              (kont = AfterRead br ∨ kont = AfterPeek br target offset)
    | None => True
    end).
  { destruct Hres as [->| ->].
    - destruct (read w target offset len) as [[[k|e|d kont] w1]|] eqn:Hread; eauto.
      apply read_outcome in Hread as (_ & _ & br & -> & _). eauto.
    - destruct (peek w target offset len) as [[[k|e|d kont] w1]|] eqn:Hpeek; [| | |done];
        apply peek_outcome in Hpeek.
      + destruct Hpeek as (w0 & Hread & ->). eauto.
      + done.
      + destruct Hpeek as (br & -> & Hread). eauto. }
  clear Hres. unfold completes in Hdone.
  destruct res as [[[k|e|d kont] w1]|]; [| | |done].
  - destruct Hdone as [-> ->]. destruct Hshape as (w0 & Hread & Hheap). split.
    + intros x Hx. rewrite Hheap. by eapply read_window.
    + intros k' [= <-]. by apply read_outcome in Hread as (_ & _ & _ & Hk); apply Hk.
  - destruct Hdone as [-> ->]. split; [|done].
    intros x Hx. by eapply read_window.
  - destruct Hshape as (br & Hread & Hkont).
    destruct Hdone as (w2 & Hsteps & Hresume).
    pose proof Hread as Hout.
    apply read_outcome in Hout as (_ & _ & br' & [= <-] & Hbr & Hr & Hp & _).
    set (r := mkRequest target (offset + br) (len - br) d) in *.
    assert (Hheld : held_by r w1) by (by right).
    destruct (env_steps_effect r w1 w2 Hheld Hsteps) as (_ & _ & _ & _ & _ & Hbound).
    apply resume_outcome in Hresume as (_ & Hheap & _ & Hend).
    split.
    + intros x Hx. rewrite Hheap.
      rewrite (env_steps_window r w1 w2 x Hb Hheld Hsteps) by (simpl; lia).
      by eapply read_window.
    + intros k' ->. destruct Hend as (m & Hm & Hk).
      assert (m ≤ len - br).
      { apply (Hbound Hb); [|done]. intros n. simpl. by rewrite Hp. }
      destruct Hkont as [-> | ->]; destruct Hk as [-> _]; lia.
Qed.

End Window.

(** ** Listeners and promises of a single caller *)


Section SingleCaller.
Context {Stream : Type} `{!Readable Stream}.
Implicit Types (w : World Stream) (r : IReadRequest).











End SingleCaller.

(** ** A [read] after a [peek] *)

Section AfterPeek.
Context {Stream : Type} `{!Readable Stream}.
Implicit Types (w : World Stream) (r : IReadRequest).

(** X12.  After a [peek] that ended with [k] bytes, a [read] of no more
    than [k] bytes returns at once and calls nothing on the stream.  What
    it delivers are the bytes that the peeked part of the buffer of the
    [peek] holds when the [read] is made: the peek queue keeps a view of
    that buffer, not a copy, so these are the bytes of the [peek] only if
    the caller has left them alone ([m1] is the memory at the time of the
    [read]). *)
Theorem read_after_peek_sees_the_buffer w0 a o1 n k w1 w1' m1 b o2 m :
  bounded_reads Stream →
  request (this w0) = None →
  o1 + n ≤ blength a →
  completes (peek w0 a o1 n) (Returned k) w1 →
  rtc env_step w1 w1' →
  0 < m → m ≤ k →
  o2 + m ≤ blength b →
  ∃ w2, read (set_heap w1' m1) b o2 m = Some (Returned m, w2) ∧
        same_object (set_heap w1' m1) w2 ∧
        load (heap w2) (byteOffset b + o2) m
          = take m (load m1 (byteOffset a + o1) k).
Proof.
  intros Hb Hreq Hin1 Hfirst Hsteps Hm Hmk Hin2.
  destruct (peek_completed w0 a o1 n k w1 Hb Hreq Hin1 Hfirst)
    as (_ & Hidle & rest & Hq & _).
  destruct (env_steps_idle w1 w1' Hidle Hsteps) as (_ & _ & Hq').
  rewrite Hq in Hq'. set (c := mkBuffer (byteOffset a + o1) k) in *.
  set (w := set_heap w1' m1).
  assert (Hqw : peekQueue (this w) = c :: rest) by done.
  destruct (read_unfold w b o2 m) as (w2 & _ & Hsame & _ & _ & Hread);
    [done|by rewrite Hqw; intros [? _]|].
  rewrite Hqw in Hread. simpl in Hread.
  replace (m `min` (k + buffered rest)) with m in Hread by lia.
  rewrite Nat.sub_diag in Hread. simpl in Hread.
  exists w2. split; [done|]. split; [done|].
  apply (read_first_chunk w b o2 m c rest) in Hread as [Hload _]; [|done|done|done].
  simpl in Hload. replace (k `min` m) with m in Hload by lia. done.
Qed.

End AfterPeek.

(** ** The properties on the example worlds *)

(** X1 on a queue of three bytes of which two are read. *)
Lemma read_served_by_the_queue_witness :
  0 < 2 ∧ 0 + 2 ≤ blength bufB ∧ 2 ≤ buffered (peekQueue (this three_peeked)) ∧
  Forall (apart (byteOffset bufB + 0) 2) (peekQueue (this three_peeked)) ∧
  ∃ w', read three_peeked bufB 0 2 = Some (Returned 2, w') ∧
        load (heap w') 8 2 = bytes "xy" ∧
        queued (heap w') (peekQueue (this w')) = bytes "z".
Proof.
  assert (Hapart : Forall (apart (byteOffset bufB + 0) 2) (peekQueue (this three_peeked))).
  { constructor; [left; simpl; lia|constructor]. }
  split; [lia|]. split; [simpl; lia|]. split; [simpl; lia|]. split; [exact Hapart|].
  destruct (read_served_by_the_queue three_peeked bufB 0 2)
    as (w' & Hread & _ & Hload & Hrest); [lia|simpl; lia|simpl; lia|exact Hapart|].
  exists w'. split; [exact Hread|]. split; [exact Hload|exact Hrest].
Defined.

(** X2 on three queued bytes and a stream of six: five bytes are read. *)
Lemma read_queue_then_stream_witness :
  bounded_reads NodeStream ∧
  endOfStream (this three_peeked_six_left) = false ∧
  request (this three_peeked_six_left) = None ∧
  buffered (peekQueue (this three_peeked_six_left)) < 5 ∧
  0 + 5 ≤ blength bufB ∧
  ∃ w', read three_peeked_six_left bufB 0 5 = Some (Returned 5, w') ∧
        load (heap w') 8 5 = bytes "xyzab" ∧
        s (this w') = mkNodeStream (bytes "cdef") false.
Proof.
  split; [exact node_stream_bounded|]. split; [reflexivity|]. split; [reflexivity|].
  split; [simpl; lia|]. split; [simpl; lia|].
  destruct (read_queue_then_stream three_peeked_six_left bufB 0 5
              (bytes "ab") (mkNodeStream (bytes "cdef") false) node_stream_bounded)
    as (w' & Hread & Hs & _ & Hload);
    [reflexivity|reflexivity|simpl; lia|reflexivity|simpl; lia|constructor|].
  exists w'. split; [exact Hread|]. split; [exact Hload|exact Hs].
Defined.

(** X3 on three queued bytes and a stream of six: a [peek] of five bytes
    pulls two, and the queue then holds the five. *)
Lemma peek_keeps_bytes_queued_witness :
  bounded_reads NodeStream ∧ 0 + 5 ≤ blength bufB ∧
  Forall (apart (byteOffset bufB + 0) 5) (peekQueue (this three_peeked_six_left)) ∧
  ∃ w1,
    peek three_peeked_six_left bufB 0 5 = Some (Returned 5, w1) ∧
    s (this w1) = mkNodeStream (bytes "cdef") false ∧
    load (heap w1) 8 5 = bytes "xyzab" ∧
    queued (heap w1) (peekQueue (this w1)) = bytes "xyzab".
Proof.
  assert (Hapart : Forall (apart (byteOffset bufB + 0) 5)
                          (peekQueue (this three_peeked_six_left))).
  { constructor; [left; simpl; lia|constructor]. }
  split; [exact node_stream_bounded|]. split; [simpl; lia|]. split; [exact Hapart|].
  set (w1 := world_after three_peeked_six_left (peek three_peeked_six_left bufB 0 5)).
  exists w1. split; [reflexivity|].
  destruct (peek_keeps_bytes_queued three_peeked_six_left bufB 0 5 5 w1
              node_stream_bounded) as (fresh & Hfresh & _ & _ & Hload & Hq);
    [simpl; lia|exact Hapart|reflexivity|].
  destruct Hfresh as [([Hle|Heos] & _)|(_ & _ & Hstream)];
    [simpl in Hle; lia|discriminate Heos|].
  vm_compute in Hstream. injection Hstream as <-.
  split; [reflexivity|]. split; [exact Hload|exact Hq].
Defined.

(** X4 on the [read] of two bytes that waits, fed with two bytes. *)
Lemma readable_while_waiting_witness :
  readable_once no_bytes = 0 ∧
  read no_bytes bufA 0 2 = Some (Awaiting 0 (AfterRead 0), waiting) ∧
  ∃ w3 w4,
    dispatch waiting_fed readable = Some w3 ∧
    resume w3 0 (AfterRead 0) = Some (Returned 2, w4) ∧
    load (heap w4) 0 2 = bytes "ab".
Proof.
  split; [reflexivity|]. split; [reflexivity|].
  destruct (readable_while_waiting no_bytes bufA 0 2 0 (AfterRead 0) waiting
              (mkNodeStream (bytes "ab") false))
    as (br & Hk & _ & Hfed & _); [reflexivity|reflexivity|].
  injection Hk as <-.
  destruct (Hfed (bytes "ab") (mkNodeStream [] false))
    as (w3 & w4 & Hev & Hres & _ & _ & _ & Hload); [reflexivity|].
  exists w3, w4. split; [exact Hev|]. split; [exact Hres|].
  apply Hload; simpl; lia.
Defined.

(** X5 on the same [read]: the chunk comes in, then the stream ends. *)
Lemma resolved_read_survives_termination_witness :
  request (this waiting_fed) = Some (mkRequest bufA 0 2 0) ∧
  promises waiting_fed !! 0 = Some Pending ∧
  ∃ w1 w3,
    tryRead waiting_fed = (None, w1) ∧
    resume (reject w1 endOfStreamError) 0 (AfterRead 0) = Some (Returned 2, w3) ∧
    endOfStream (this w3) = true.
Proof.
  split; [reflexivity|]. split; [reflexivity|].
  destruct (resolved_read_survives_termination waiting_fed (mkRequest bufA 0 2 0)
              (bytes "ab") (mkNodeStream [] false) endOfStreamError 0)
    as (w1 & w3 & Htry & _ & Hres & Heos & _); [reflexivity|reflexivity|reflexivity|].
  exists w1, w3. split; [exact Htry|]. split; [exact Hres|exact Heos].
Defined.

(** X6 on the [read] that waits: [error], then [close]. *)
Lemma first_termination_signal_wins_witness :
  request (this waiting) = Some (mkRequest bufA 0 2 0) ∧
  promises waiting !! 0 = Some Pending ∧
  error_once waiting = true ∧ close_once waiting = true ∧
  ∃ w1 w2,
    dispatch waiting (error_ (Error "boom")) = Some w1 ∧
    dispatch w1 close = Some w2 ∧
    resume w2 0 (AfterRead 0) = Some (Thrown (Error "boom"), set_request w2 None).
Proof.
  split; [reflexivity|]. split; [reflexivity|]. split; [reflexivity|].
  split; [reflexivity|].
  destruct (first_termination_signal_wins waiting (mkRequest bufA 0 2 0)
              (Error "boom") streamClosedError (AfterRead 0)) as [_ Hevents];
    [reflexivity|reflexivity|].
  destruct Hevents as (w1 & w2 & Herr & Hclose & Hres); [reflexivity|reflexivity|].
  exists w1, w2. split; [exact Herr|]. split; [exact Hclose|exact Hres].
Defined.

(** X7 on the [read] that waits, rejected by the end of the stream. *)
Lemma readable_after_rejection_witness :
  read no_bytes bufA 0 2 = Some (Awaiting 0 (AfterRead 0), waiting) ∧
  ∃ w3,
    resume (reject waiting endOfStreamError) 0 (AfterRead 0)
      = Some (Thrown endOfStreamError, w3) ∧
    readable_once w3 = 1 ∧
    dispatch w3 readable = None.
Proof.
  split; [reflexivity|].
  destruct (readable_after_rejection no_bytes bufA 0 2 0 (AfterRead 0) waiting
              endOfStreamError) as (w3 & Hres & Hro & _ & _ & Hev); [reflexivity|].
  exists w3. split; [exact Hres|]. split; [exact Hro|exact Hev].
Defined.


(** X9 on a [peek] of two bytes into the first buffer: the second buffer
    is left alone. *)
Lemma writes_stay_in_window_witness :
  bounded_reads NodeStream ∧ 0 + 2 ≤ blength bufA ∧
  completes (peek six_bytes bufA 0 2) (Returned 2) six_bytes_peeked ∧
  heap six_bytes_peeked 8 = heap six_bytes 8 ∧ 2 ≤ 2.
Proof.
  assert (Hdone : completes (peek six_bytes bufA 0 2) (Returned 2) six_bytes_peeked)
    by (split; reflexivity).
  split; [exact node_stream_bounded|]. split; [simpl; lia|]. split; [exact Hdone|].
  destruct (writes_stay_in_window six_bytes bufA 0 2 (Returned 2) six_bytes_peeked
              node_stream_bounded) as [Hout Hk]; [simpl; lia|by right|].
  split; [apply Hout; simpl; lia|by apply Hk].
Defined.

(** X10 on a stream of six bytes: a [peek] of two bytes, then a [read]
    of two. *)
Lemma peek_then_read_witness :
  bounded_reads NodeStream ∧ request (this six_bytes) = None ∧
  0 + 2 ≤ blength bufA ∧ 0 + 2 ≤ blength bufB ∧
  completes (peek six_bytes bufA 0 2) (Returned 2) six_bytes_peeked ∧
  ∃ w2, read six_bytes_peeked bufB 0 2 = Some (Returned 2, w2) ∧
        load (heap w2) (byteOffset bufB + 0) 2
          = load (heap six_bytes_peeked) (byteOffset bufA + 0) 2.
Proof.
  assert (Hdone : completes (peek six_bytes bufA 0 2) (Returned 2) six_bytes_peeked)
    by (split; reflexivity).
  split; [exact node_stream_bounded|]. split; [reflexivity|].
  split; [simpl; lia|]. split; [simpl; lia|]. split; [exact Hdone|].
  apply (peek_then_read six_bytes bufA 0 2 2 six_bytes_peeked six_bytes_peeked bufB 0
                        node_stream_bounded);
    [reflexivity|simpl; lia|simpl; lia|exact Hdone|apply rtc_refl|by left].
Defined.

(** X11 on a reader whose stream ended before anything was read. *)
Lemma drained_after_termination_witness :
  endOfStream (this ended_at_once) = true ∧
  peekQueue (this ended_at_once) = [] ∧ 0 < 1 ∧
  read ended_at_once bufA 0 1 = Some (Thrown endOfStreamError, ended_at_once) ∧
  peek ended_at_once bufA 0 1 = Some (Thrown endOfStreamError, ended_at_once).
Proof.
  split; [reflexivity|]. split; [reflexivity|]. split; [lia|].
  destruct (drained_after_termination ended_at_once ended_at_once bufA 0 1)
    as (Hread & Hpeek & _); [reflexivity|reflexivity|apply rtc_refl|lia|].
  split; [exact Hread|exact Hpeek].
Defined.

(** X12 on a [peek] of two bytes whose buffer the caller then fills with
    other bytes: the [read] delivers the other bytes. *)
Lemma read_after_peek_sees_the_buffer_witness :
  bounded_reads NodeStream ∧ request (this six_bytes) = None ∧
  0 + 2 ≤ blength bufA ∧
  completes (peek six_bytes bufA 0 2) (Returned 2) six_bytes_peeked ∧
  0 < 2 ∧ 2 ≤ 2 ∧ 0 + 2 ≤ blength bufB ∧
  ∃ w2,
    read (set_heap six_bytes_peeked (store (heap six_bytes_peeked) 0 (bytes "QQ")))
         bufB 0 2 = Some (Returned 2, w2) ∧
    load (heap w2) 8 2 = bytes "QQ".
Proof.
  assert (Hdone : completes (peek six_bytes bufA 0 2) (Returned 2) six_bytes_peeked)
    by (split; reflexivity).
  split; [exact node_stream_bounded|]. split; [reflexivity|]. split; [simpl; lia|].
  split; [exact Hdone|]. split; [lia|]. split; [lia|]. split; [simpl; lia|].
  destruct (read_after_peek_sees_the_buffer six_bytes bufA 0 2 2 six_bytes_peeked
              six_bytes_peeked (store (heap six_bytes_peeked) 0 (bytes "QQ")) bufB 0 2
              node_stream_bounded) as (w2 & Hread & _ & Hload);
    [reflexivity|simpl; lia|exact Hdone|apply rtc_refl|lia|lia|simpl; lia|].
  exists w2. split; [exact Hread|]. exact Hload.
Defined.

(** ** What a rejected [read] has taken, and where calls write *)

Section Losses.
Context {Stream : Type} `{!Readable Stream}.
Implicit Types (w : World Stream) (r : IReadRequest).



End Losses.

Section BufferBounds.
Context {Stream : Type} `{!Readable Stream}.
Implicit Types (w : World Stream) (r : IReadRequest).

Lemma copy_outside_target m c target t ss se x :
  x < byteOffset target ∨ byteOffset target + blength target ≤ x →
  copy m c target t ss se x = m x.
Proof.
  intros Hx. unfold copy. apply store_outside. rewrite length_load. lia.
Qed.

Lemma copy_chunk_outside_target m chunk target t x :
  x < byteOffset target ∨ byteOffset target + blength target ≤ x →
  copy_chunk m chunk target t x = m x.
Proof.
  intros Hx. unfold copy_chunk. apply store_outside. rewrite length_take. lia.
Qed.

Lemma consumePeeked_outside_target fuel x : ∀ w target offset bytesRead remaining w' br' rem',
  consumePeeked fuel w target offset bytesRead remaining = Some (w', br', rem') →
  x < byteOffset target ∨ byteOffset target + blength target ≤ x →
  heap w' x = heap w x.
Proof.
  induction fuel as [|fuel IH]; intros w target offset bytesRead remaining w' br' rem';
    [done|].
  simpl. destruct (peekQueue (this w)) as [|c rest]; [by intros [= <- _ _]|].
  case_bool_decide; [|by intros [= <- _ _]].
  intros Hloop Hx. rewrite (IH _ _ _ _ _ _ _ _ Hloop Hx).
  case_bool_decide; simpl; by apply copy_outside_target.
Qed.

Lemma read_outside_target w target offset len a w1 x :
  read w target offset len = Some (a, w1) →
  x < byteOffset target ∨ byteOffset target + blength target ≤ x →
  heap w1 x = heap w x.
Proof.
  unfold read. case_bool_decide; [by intros [= <- <-]|].
  destruct (bool_decide _ && endOfStream _); [by intros [= <- <-]|].
  destruct (consumePeeked _ w target offset 0 len) as [[[w0 br] rem]|] eqn:Hloop;
    [|done].
  intros Hread Hx.
  rewrite <- (consumePeeked_outside_target _ x _ _ _ _ _ _ _ _ Hloop Hx).
  destruct (bool_decide _ && negb _); [|by injection Hread as <- <-].
  unfold _read in Hread. destruct (request (this w0)); [by injection Hread as <- <-|].
  destruct (stream_read (s (this w0)) rem) as [[chunk|] s'];
    injection Hread as <- <-; simpl; [|done].
  by apply copy_chunk_outside_target.
Qed.

Lemma emit_readable_outside_target r n x : ∀ w w',
  held_by r w →
  emit_readable n w = (None, w') →
  x < byteOffset (buffer r) ∨ byteOffset (buffer r) + blength (buffer r) ≤ x →
  heap w' x = heap w x.
Proof.
  induction n as [|n IH]; intros w w' Hh; simpl.
  { by intros [= <-]. }
  destruct (tryRead (set_readable_once w (readable_once w - 1))) as [[e|] w1] eqn:Ht;
    [done|].
  intros Hemit Hx.
  pose proof (tryRead_effect r (set_readable_once w (readable_once w - 1)) w1 Hh Ht)
    as [Hh1 _].
  rewrite (IH w1 w' Hh1 Hemit Hx). clear IH Hemit.
  unfold tryRead in Ht. simpl in Ht. destruct Hh as [Hr|Hr]; rewrite Hr in Ht; [done|].
  destruct (stream_read (s (this w)) (length_ r)) as [[chunk|] s'];
    injection Ht as <-; simpl; [|done].
  by apply copy_chunk_outside_target.
Qed.

Lemma env_steps_outside_target r w w' x :
  held_by r w →
  rtc env_step w w' →
  x < byteOffset (buffer r) ∨ byteOffset (buffer r) + blength (buffer r) ≤ x →
  heap w' x = heap w x.
Proof.
  intros Hh Hsteps Hx. induction Hsteps as [w|w1 w2 w3 Hstep _ IH]; [done|].
  pose proof (env_step_effect r _ _ Hh Hstep) as (Hh2 & _).
  rewrite IH by done. clear IH.
  destruct Hstep as [ev Hev]. destruct ev as [| |err| |s']; simpl in Hev.
  - destruct (emit_readable (readable_once w1) w1) as [[e|] w0] eqn:Hemit; [done|].
    injection Hev as <-. by eapply emit_readable_outside_target.
  - destruct (end_once w1); injection Hev as <-; [by rewrite reject_heap|done].
  - destruct (error_once w1); injection Hev as <-; [by rewrite reject_heap|done].
  - destruct (close_once w1); injection Hev as <-; [by rewrite reject_heap|done].
  - by injection Hev as <-.
Qed.

(** X14.  Whatever offset and length it is called with, and whatever the
    stream hands out, a [read] or a [peek] that runs to its end writes to
    no byte outside the buffer it was given: the copies stop at the end
    of the target buffer. *)
Theorem writes_stay_in_buffer w target offset len a w' x :
  completes (read w target offset len) a w' ∨
    completes (peek w target offset len) a w' →
  x < byteOffset target ∨ byteOffset target + blength target ≤ x →
  heap w' x = heap w x.
Proof.
  intros Hdone Hx.
  assert (Hsync : ∀ res, res = read w target offset len ∨
                         res = peek w target offset len →
            match res with
            | Some (Awaiting d kont, w1) =>
                heap w1 x = heap w x ∧
                ∃ r, request (this w1) = Some r ∧ buffer r = target
            | Some (_, w1) => heap w1 x = heap w x
            | None => True
            end).
  { intros res [->| ->].
    - destruct (read w target offset len) as [[[k|e|d kont] w1]|] eqn:Hread; [| | |done];
        try by eapply read_outside_target.
      split; [by eapply read_outside_target|].
      apply read_outcome in Hread as (_ & _ & br & _ & _ & Hr & _). eauto.
    - destruct (peek w target offset len) as [[[k|e|d kont] w1]|] eqn:Hpeek; [| | |done];
        apply peek_outcome in Hpeek.
      + destruct Hpeek as (w0 & Hread & ->). simpl. by eapply read_outside_target.
      + by eapply read_outside_target.
      + destruct Hpeek as (br & _ & Hread).
        split; [by eapply read_outside_target|].
        apply read_outcome in Hread as (_ & _ & br' & _ & _ & Hr & _). eauto. }
  assert (Hcall : ∃ res, (res = read w target offset len ∨
                          res = peek w target offset len) ∧
                         completes res a w') by (destruct Hdone; eauto).
  clear Hdone. destruct Hcall as (res & Hres & Hdone).
  specialize (Hsync res Hres). unfold completes in Hdone.
  destruct res as [[[k|e|d kont] w1]|]; [| | |done].
  - by destruct Hdone as [_ ->].
  - by destruct Hdone as [_ ->].
  - destruct Hsync as [Hheap (r & Hr & Hbuf)].
    destruct Hdone as (w2 & Hsteps & Hresume).
    apply resume_outcome in Hresume as (_ & -> & _).
    rewrite (env_steps_outside_target r w1 w2 x); [done|by right|done|by rewrite Hbuf].
Qed.

End BufferBounds.


(** X14 on a [read] of five bytes into a buffer of two: the byte behind
    the buffer is left alone. *)
Lemma writes_stay_in_buffer_witness :
  completes (read six_bytes (mkBuffer 0 2) 0 5) (Returned 5)
            (world_after six_bytes (read six_bytes (mkBuffer 0 2) 0 5)) ∧
  (2 < byteOffset (mkBuffer 0 2) ∨
   byteOffset (mkBuffer 0 2) + blength (mkBuffer 0 2) ≤ 2) ∧
  heap (world_after six_bytes (read six_bytes (mkBuffer 0 2) 0 5)) 2 = heap six_bytes 2.
Proof.
  assert (Hdone : completes (read six_bytes (mkBuffer 0 2) 0 5) (Returned 5)
                    (world_after six_bytes (read six_bytes (mkBuffer 0 2) 0 5)))
    by (split; reflexivity).
  split; [exact Hdone|]. split; [right; simpl; lia|].
  apply (writes_stay_in_buffer six_bytes (mkBuffer 0 2) 0 5 (Returned 5)); [by left|].
  right. simpl. lia.
Defined.
